(** * Record/replay thread coordination: Thread.h and BufferStream.h

    A shallow embedding of the inline code of
    [toolkit/recordreplay/Thread.h] (class [Thread] and the scoped guard
    [RecordingEventSection]) and of [toolkit/recordreplay/BufferStream.h]
    (class [BufferStream]), followed by the properties proved about it.

    Conventions.
    - [size_t] is a 64-bit unsigned integer, modelled as [N] with the
      wrap-around of [++], [--] and [-=] written out.
    - A failed [MOZ_RELEASE_ASSERT] aborts the process: outcome [Fatal].
    - A call that cannot proceed until another thread acts has outcome
      [Blocked].
    - A C++ pointer that may be null is an [option]; a method of a class is
      a function of the object's state returning the new state. *)

From Stdlib Require Import NArith Lia.
From Stdlib.Strings Require Import Byte.
From stdpp Require Import base option list gmap.

Local Open Scope N_scope.

(** ** Machine integers *)

Definition SIZE_MODULUS : N := 2 ^ 64.
Definition SIZE_MAX : N := SIZE_MODULUS - 1.

(** [n++] on a [size_t]. *)
Definition size_incr (n : N) : N := (n + 1) mod SIZE_MODULUS.
(** [n--] on a [size_t]. *)
Definition size_decr (n : N) : N := (n + SIZE_MAX) mod SIZE_MODULUS.
(** [a -= b] on a [size_t]. *)
Definition size_sub (a b : N) : N :=
  (a + (SIZE_MODULUS - b mod SIZE_MODULUS)) mod SIZE_MODULUS.

(** ** Outcomes of a call *)

Inductive result (A : Type) : Type :=
| Ok (a : A)   (* the call returns *)
| Fatal        (* a release assertion failed: the process aborts *)
| Blocked.     (* the caller waits for some other thread *)
Arguments Ok {A} a.
Arguments Fatal {A}.
Arguments Blocked {A}.

#[global] Instance result_ret : MRet result := fun _ a => Ok a.
#[global] Instance result_bind : MBind result := fun _ _ f m =>
  match m with
  | Ok a => f a
  | Fatal => Fatal
  | Blocked => Blocked
  end.

Definition MOZ_RELEASE_ASSERT (c : bool) : result unit :=
  if c then Ok tt else Fatal.

(** [MOZ_RELEASE_ASSERT(p)] on a pointer, giving the pointee. *)
Definition MOZ_RELEASE_ASSERT_ptr {A : Type} (p : option A) : result A :=
  match p with
  | Some a => Ok a
  | None => Fatal
  end.

(** ** BufferStream.h *)

(** [mInput] is [Some buf] when the pointer is not null, [buf] being the
    bytes stored from the pointer onwards; [mOutput] is the vector the
    stream appends to, when there is one. *)
Record BufferStream : Type := mkBufferStream {
  mOutput : option (list byte);
  mInput : option (list byte);
  mInputSize : N
}.

(** [BufferStream(const char* aInput, size_t aInputSize)] *)
Definition BufferStream_input (aInput : option (list byte)) (aInputSize : N)
  : BufferStream :=
  {| mOutput := None; mInput := aInput; mInputSize := aInputSize |}.

(** [BufferStream(InfallibleVector<char>* aOutput)] *)
Definition BufferStream_output (aOutput : option (list byte)) : BufferStream :=
  {| mOutput := aOutput; mInput := None; mInputSize := 0 |}.

Definition WriteBytes (s : BufferStream) (aData : list byte)
  : result BufferStream :=
  out ← MOZ_RELEASE_ASSERT_ptr (mOutput s);
  Ok {| mOutput := Some (out ++ aData);
        mInput := mInput s;
        mInputSize := mInputSize s |}.

(** [ReadBytes(aData, aSize)]: the first component of the result is what
    [memcpy] stored at [aData] (nothing when [aSize] is zero). *)
Definition ReadBytes (s : BufferStream) (aSize : N)
  : result (list byte * BufferStream) :=
  if aSize =? 0 then Ok ([], s)
  else
    buf ← MOZ_RELEASE_ASSERT_ptr (mInput s);
    MOZ_RELEASE_ASSERT (aSize <=? mInputSize s);;
    Ok (take (N.to_nat aSize) buf,
        {| mOutput := mOutput s;
           mInput := Some (drop (N.to_nat aSize) buf);
           mInputSize := size_sub (mInputSize s) aSize |}).

Definition IsEmpty (s : BufferStream) : result bool :=
  MOZ_RELEASE_ASSERT_ptr (mInput s);;
  Ok (mInputSize s =? 0).

(** *** Scalars *)

Section Scalars.

(** The object representation of an unsigned integer in [n] bytes, and the
    integer that a representation holds: they belong to the target, not to
    BufferStream.h, and are parameters here. *)
Variable repr : nat -> N -> list byte.
Variable value : list byte -> N.

(** [sizeof(uint32_t)] is 4 and [sizeof(size_t)] is 8. *)
Definition WriteScalar32 (s : BufferStream) (aValue : N) : result BufferStream :=
  WriteBytes s (repr 4 aValue).

Definition WriteScalar (s : BufferStream) (aValue : N) : result BufferStream :=
  WriteBytes s (repr 8 aValue).

Definition ReadScalar32 (s : BufferStream) : result (N * BufferStream) :=
  p ← ReadBytes s 4; Ok (value p.1, p.2).

Definition ReadScalar (s : BufferStream) : result (N * BufferStream) :=
  p ← ReadBytes s 8; Ok (value p.1, p.2).

End Scalars.

(** The little-endian representation, the one of the x86 targets. *)
Definition byte_of_N (x : N) : byte := default x00 (Byte.of_N x).

Fixpoint le_repr (n : nat) (v : N) : list byte :=
  match n with
  | O => []
  | S n' => byte_of_N (v mod 256) :: le_repr n' (v / 256)
  end.

Fixpoint le_value (bs : list byte) : N :=
  match bs with
  | [] => 0
  | b :: bs' => Byte.to_N b + 256 * le_value bs'
  end.

(** *** Sequences of calls *)

(** [WriteBytes] of each chunk in turn. *)
Fixpoint write_chunks (s : BufferStream) (chunks : list (list byte))
  : result BufferStream :=
  match chunks with
  | [] => Ok s
  | d :: chunks' => s' ← WriteBytes s d; write_chunks s' chunks'
  end.

(** The size passed along with a chunk of data. *)
Definition chunk_size (d : list byte) : N := N.of_nat (length d).

(** [ReadBytes] of each size in turn, collecting what was read. *)
Fixpoint read_chunks (s : BufferStream) (sizes : list N)
  : result (list (list byte) * BufferStream) :=
  match sizes with
  | [] => Ok ([], s)
  | n :: sizes' =>
      p ← ReadBytes s n;
      q ← read_chunks p.2 sizes';
      Ok (p.1 :: q.1, q.2)
  end.

(** An input stream whose buffer holds the bytes it counts as remaining,
    the count being a [size_t]. *)
Definition holds_remaining (s : BufferStream) : Prop :=
  exists buf : list byte,
    mInput s = Some buf
    /\ (N.to_nat (mInputSize s) <= length buf)%nat
    /\ mInputSize s < SIZE_MODULUS.

(** A stream reads or writes, not both. *)
Definition one_sided (s : BufferStream) : Prop :=
  mOutput s = None \/ mInput s = None.

(** ** Thread coordination: Wait and Notify *)

(** Modelled from the spec: [Thread::Wait] and [Thread::Notify] are declared
    in Thread.h and defined in Thread.cpp, which is not among the sources.
    Thread.h documents them: each [Notify] on a thread id lets that thread
    return from one call to [Wait]; a [Notify] on a thread that is not
    waiting lets its next [Wait] return without another [Notify].  The state
    keeps, per thread id, the notifications not yet consumed, and the set of
    threads that are inside a call to [Wait]. *)
Record Coordination : Type := mkCoordination {
  cPending : gmap N nat;
  cWaiting : gset N
}.

Definition coord_init : Coordination :=
  {| cPending := ∅; cWaiting := ∅ |}.

Definition pending (c : Coordination) (aId : N) : nat :=
  default 0%nat (cPending c !! aId).

Definition Notify (aId : N) (c : Coordination) : Coordination :=
  {| cPending := <[aId := S (pending c aId)]> (cPending c);
     cWaiting := cWaiting c |}.

(** Thread [aId] enters [Wait]. *)
Definition WaitCall (aId : N) (c : Coordination) : option Coordination :=
  if bool_decide (aId ∈ cWaiting c) then None
  else Some {| cPending := cPending c; cWaiting := {[aId]} ∪ cWaiting c |}.

(** Thread [aId] returns from [Wait], consuming one notification. *)
Definition WaitReturn (aId : N) (c : Coordination) : option Coordination :=
  if bool_decide (aId ∈ cWaiting c) then
    match pending c aId with
    | O => None
    | S n => Some {| cPending := <[aId := n]> (cPending c);
                     cWaiting := cWaiting c ∖ {[aId]} |}
    end
  else None.


Inductive CoordEvent : Type :=
| EvNotify (aId : N)
| EvWaitCall (aId : N)
| EvWaitReturn (aId : N).

Definition coord_step (c : Coordination) (ev : CoordEvent)
  : option Coordination :=
  match ev with
  | EvNotify aId => Some (Notify aId c)
  | EvWaitCall aId => WaitCall aId c
  | EvWaitReturn aId => WaitReturn aId c
  end.

(** An interleaving of the threads' coordination events. *)
Fixpoint coord_run (c : Coordination) (tr : list CoordEvent)
  : option Coordination :=
  match tr with
  | [] => Some c
  | ev :: tr' => coord_step c ev ≫= fun c' => coord_run c' tr'
  end.




(** ** Thread.h: class Thread *)

Definition MainThreadId : N := 1.
Definition MaxThreadId : N := 70.

(** Modelled from the spec: [Stream] (Recording.h is not among the sources)
    is a sequential byte log with a read position, which reports the end of
    its data; it carries the marker [mInRecordingEventSection]. *)
Record Stream : Type := mkStream {
  sLog : list byte;
  sReadPos : N;
  mInRecordingEventSection : bool
}.

Definition AtEnd (s : Stream) : bool :=
  N.of_nat (length (sLog s)) <=? sReadPos s.

(** The fields of [Thread] that the inline methods read or write; the other
    fields (start routine, native ids, stack, idle handles, owned locks,
    storage) are only used by Thread.cpp. *)
Record Thread : Type := mkThread {
  mId : N;
  mPassThroughEvents : bool;
  mDisallowEvents : N;
  mDivergedFromRecording : bool;
  mShouldDivergeFromRecording : bool;
  mEvents : Stream
}.

Definition set_mPassThroughEvents (b : bool) (t : Thread) : Thread :=
  mkThread (mId t) b (mDisallowEvents t) (mDivergedFromRecording t)
           (mShouldDivergeFromRecording t) (mEvents t).

Definition set_mDisallowEvents (n : N) (t : Thread) : Thread :=
  mkThread (mId t) (mPassThroughEvents t) n (mDivergedFromRecording t)
           (mShouldDivergeFromRecording t) (mEvents t).

Definition set_mDivergedFromRecording (b : bool) (t : Thread) : Thread :=
  mkThread (mId t) (mPassThroughEvents t) (mDisallowEvents t) b
           (mShouldDivergeFromRecording t) (mEvents t).

Definition set_mShouldDivergeFromRecording (b : bool) (t : Thread) : Thread :=
  mkThread (mId t) (mPassThroughEvents t) (mDisallowEvents t)
           (mDivergedFromRecording t) b (mEvents t).

Definition set_mInRecordingEventSection (b : bool) (t : Thread) : Thread :=
  mkThread (mId t) (mPassThroughEvents t) (mDisallowEvents t)
           (mDivergedFromRecording t) (mShouldDivergeFromRecording t)
           (mkStream (sLog (mEvents t)) (sReadPos (mEvents t)) b).

Definition Id (t : Thread) : N := mId t.
Definition Events (t : Thread) : Stream := mEvents t.

Definition IsMainThread (t : Thread) : bool := mId t =? MainThreadId.

Definition SetPassThrough (aPassThrough : bool) (t : Thread) : result Thread :=
  MOZ_RELEASE_ASSERT
    (bool_decide (mPassThroughEvents t = negb aPassThrough));;
  Ok (set_mPassThroughEvents aPassThrough t).

Definition PassThroughEvents (t : Thread) : bool := mPassThroughEvents t.

Definition BeginDisallowEvents (t : Thread) : Thread :=
  set_mDisallowEvents (size_incr (mDisallowEvents t)) t.

Definition EndDisallowEvents (t : Thread) : result Thread :=
  MOZ_RELEASE_ASSERT (negb (mDisallowEvents t =? 0));;
  Ok (set_mDisallowEvents (size_decr (mDisallowEvents t)) t).

Definition AreEventsDisallowed (t : Thread) : bool :=
  negb (mDisallowEvents t =? 0).

Definition DivergeFromRecording (t : Thread) : Thread :=
  set_mDivergedFromRecording true t.

Definition HasDivergedFromRecording (t : Thread) : bool :=
  mDivergedFromRecording t.

(** Modelled from the spec: [Thread::CurrentIsMainThread] is defined in
    Thread.cpp; Thread.h documents it as the test that the calling thread is
    the process main thread.  [cur] is the id of [Thread::Current()], and
    [None] on a system thread, which has no [Thread]. *)
Definition CurrentIsMainThread (cur : option N) : bool :=
  match cur with
  | Some i => i =? MainThreadId
  | None => false
  end.

Definition SetShouldDivergeFromRecording
    (cur : option N) (t : Thread) (c : Coordination)
  : result (Thread * Coordination) :=
  MOZ_RELEASE_ASSERT (CurrentIsMainThread cur);;
  Ok (set_mShouldDivergeFromRecording true t, Notify (mId t) c).

(** The returned boolean is the method's return value. *)
Definition MaybeDivergeFromRecording (t : Thread) : bool * Thread :=
  let t' := if mShouldDivergeFromRecording t
            then set_mDivergedFromRecording true t
            else t in
  (mDivergedFromRecording t', t').

Definition CanAccessRecording (t : Thread) : bool :=
  negb (PassThroughEvents t) && negb (AreEventsDisallowed t)
  && negb (HasDivergedFromRecording t).

(** Nesting: [k] calls of [BeginDisallowEvents] and then [k] calls of
    [EndDisallowEvents]. *)
Fixpoint begin_n (k : nat) (t : Thread) : Thread :=
  match k with
  | O => t
  | S k' => begin_n k' (BeginDisallowEvents t)
  end.

Fixpoint end_n (k : nat) (t : Thread) : result Thread :=
  match k with
  | O => Ok t
  | S k' => t' ← EndDisallowEvents t; end_n k' t'
  end.

(** The operations of [Thread] that change its state, as one type, to
    speak of sequences of calls.  [OpSetShouldDivergeFromRecording] carries
    the id of the thread that makes the call. *)
Inductive ThreadOp : Type :=
| OpSetPassThrough (aPassThrough : bool)
| OpBeginDisallowEvents
| OpEndDisallowEvents
| OpDivergeFromRecording
| OpSetShouldDivergeFromRecording (cur : option N)
| OpMaybeDivergeFromRecording.

Definition thread_step (op : ThreadOp) (s : Thread * Coordination)
  : result (Thread * Coordination) :=
  let (t, c) := s in
  match op with
  | OpSetPassThrough b => t' ← SetPassThrough b t; Ok (t', c)
  | OpBeginDisallowEvents => Ok (BeginDisallowEvents t, c)
  | OpEndDisallowEvents => t' ← EndDisallowEvents t; Ok (t', c)
  | OpDivergeFromRecording => Ok (DivergeFromRecording t, c)
  | OpSetShouldDivergeFromRecording cur =>
      SetShouldDivergeFromRecording cur t c
  | OpMaybeDivergeFromRecording => Ok ((MaybeDivergeFromRecording t).2, c)
  end.

Fixpoint thread_run (ops : list ThreadOp) (s : Thread * Coordination)
  : result (Thread * Coordination) :=
  match ops with
  | [] => Ok s
  | op :: ops' => s' ← thread_step op s; thread_run ops' s'
  end.

(** ** Thread.h: class RecordingEventSection *)

(** Modelled from the spec: the stream lock of the recording (Lock.h and
    Recording.h are not among the sources) is a reader/writer lock: the read
    side is shared, the write side excludes readers. *)
Record ReadWriteLock : Type := mkReadWriteLock {
  lReaders : nat;
  lWriter : bool
}.

Definition ReadLock (l : ReadWriteLock) : result ReadWriteLock :=
  if lWriter l then Blocked
  else Ok {| lReaders := S (lReaders l); lWriter := lWriter l |}.

Definition ReadUnlock (l : ReadWriteLock) : ReadWriteLock :=
  {| lReaders := Nat.pred (lReaders l); lWriter := lWriter l |}.

(** What a section touches besides the thread: the process mode
    ([IsRecording()]), the lock [Events().mRecording->mStreamLock], and the
    rest of the process, [wEnv], which only [HitEndOfRecording] sees. *)
Record World (Env : Type) : Type := mkWorld {
  IsRecording : bool;
  mStreamLock : ReadWriteLock;
  wEnv : Env
}.
Arguments mkWorld {Env} _ _ _.
Arguments IsRecording {Env} _.
Arguments mStreamLock {Env} _.
Arguments wEnv {Env} _.

Definition set_mStreamLock {Env : Type} (l : ReadWriteLock) (w : World Env)
  : World Env :=
  mkWorld (IsRecording w) l (wEnv w).

Section RecordingEventSection.

Variable Env : Type.

(** The blocking handler, an external collaborator: while the thread
    waits in it other threads run, so it returns a changed thread and
    world, or aborts, or never returns. *)
Variable HitEndOfRecording : Thread -> World Env -> result (Thread * World Env).

(** The [while] loop of the constructor.  [None]: still looping when the
    fuel ran out. *)
Fixpoint replay_loop (fuel : nat) (t : Thread) (w : World Env)
  : option (result (Thread * World Env)) :=
  match fuel with
  | O => None
  | S fuel' =>
      let (diverged, t1) := MaybeDivergeFromRecording t in
      if negb diverged && AtEnd (Events t1) then
        match HitEndOfRecording t1 w with
        | Ok (t2, w2) => replay_loop fuel' t2 w2
        | Fatal => Some Fatal
        | Blocked => Some Blocked
        end
      else Some (Ok (t1, w))
  end.

(** The constructor.  [aThread] is the pointer argument, [None] when
    null; the result holds the state of the pointee afterwards. *)
Definition RecordingEventSection_ctor
    (fuel : nat) (aThread : option Thread) (w : World Env)
  : option (result (option Thread * World Env)) :=
  match aThread with
  | None => Some (Ok (None, w))
  | Some t =>
      if negb (CanAccessRecording t) then Some (Ok (Some t, w))
      else if IsRecording w then
        Some (MOZ_RELEASE_ASSERT
                (negb (mInRecordingEventSection (Events t)));;
              l ← ReadLock (mStreamLock w);
              Ok (Some (set_mInRecordingEventSection true t),
                  set_mStreamLock l w))
      else
        r ← replay_loop fuel t w;
        Some (p ← r; Ok (Some p.1, p.2))
  end.

(** The destructor; [mThread] is the section's pointer with the current
    state of its pointee. *)
Definition RecordingEventSection_dtor
    (mThread : option Thread) (w : World Env)
  : option Thread * World Env :=
  match mThread with
  | None => (None, w)
  | Some t =>
      if negb (CanAccessRecording t) then (Some t, w)
      else if IsRecording w then
        (Some (set_mInRecordingEventSection false t),
         set_mStreamLock (ReadUnlock (mStreamLock w)) w)
      else (Some t, w)
  end.

Definition CanAccessEvents
    (mThread : option Thread) (aTolerateDisallowedEvents : bool)
  : result bool :=
  match mThread with
  | None => Ok false
  | Some t =>
      if PassThroughEvents t || HasDivergedFromRecording t then Ok false
      else if aTolerateDisallowedEvents && AreEventsDisallowed t
      then Ok false
      else MOZ_RELEASE_ASSERT (CanAccessRecording t);; Ok true
  end.

(** The state after [k] returns of the handler, started from [(t, w)],
    each call being made on the thread as [MaybeDivergeFromRecording]
    left it. *)
Fixpoint handler_iter (k : nat) (t : Thread) (w : World Env)
  : result (Thread * World Env) :=
  match k with
  | O => Ok (t, w)
  | S k' =>
      p ← HitEndOfRecording (MaybeDivergeFromRecording t).2 w;
      handler_iter k' p.1 p.2
  end.

(** The loop condition: not diverging and at the end of the stream. *)
Definition must_wait (t : Thread) : bool :=
  negb (MaybeDivergeFromRecording t).1
  && AtEnd (Events (MaybeDivergeFromRecording t).2).

(** The run of the loop, read off the handler: for some [k], the first
    [k] checks of the condition found the thread bound to wait, each
    followed by a returning call of the handler, and the check after the
    [k]-th call did not, leaving the thread [t'] and the world [w']. *)
Definition waits_then_exits (k : nat) (t : Thread) (w : World Env)
    (t' : Thread) (w' : World Env) : Prop :=
  (forall i : nat, (i < k)%nat ->
     exists (ti : Thread) (wi : World Env),
       handler_iter i t w = Ok (ti, wi) /\ must_wait ti = true)
  /\ exists tk : Thread,
       handler_iter k t w = Ok (tk, w')
       /\ must_wait tk = false
       /\ t' = (MaybeDivergeFromRecording tk).2.

End RecordingEventSection.

Arguments replay_loop {Env} _ _ _ _.
Arguments RecordingEventSection_ctor {Env} _ _ _ _.
Arguments RecordingEventSection_dtor {Env} _ _.
Arguments handler_iter {Env} _ _ _ _.
Arguments waits_then_exits {Env} _ _ _ _ _ _.

(** ** Sample states *)

Definition sample_stream : Stream := mkStream [x01; x02; x03]%byte 3 false.

(** A recorded, non-main thread with nothing disallowed, at the end of its
    stream. *)
Definition sample_thread : Thread := mkThread 2 false 0 false false sample_stream.

(** The same thread with its disallow counter at the largest [size_t]. *)
Definition saturated_thread : Thread :=
  mkThread 2 false SIZE_MAX false false sample_stream.

Definition sample_input : BufferStream :=
  BufferStream_input
    (Some [x10; x11; x12; x13; x14; x15; x16; x17]%byte) 8.

(** A world that is recording, with one other reader on the stream lock. *)
Definition recording_world : World nat :=
  mkWorld true (mkReadWriteLock 1 false) 0%nat.

(** A world that is replaying; [wEnv] counts the calls of the handler that
    return before the main thread asks the waiting thread to diverge. *)
Definition replaying_world : World nat :=
  mkWorld false (mkReadWriteLock 0 false) 2%nat.

Definition sample_handler (t : Thread) (w : World nat)
  : result (Thread * World nat) :=
  match wEnv w with
  | O => Ok (set_mShouldDivergeFromRecording true t, w)
  | S n => Ok (t, mkWorld (IsRecording w) (mStreamLock w) n)
  end.

(** * Properties *)

Local Ltac Zify.zify_post_hook ::= Z.to_euclidean_division_equations.

Local Ltac size_arith :=
  unfold size_incr, size_decr, size_sub, SIZE_MAX in *;
  change SIZE_MODULUS with 18446744073709551616 in *;
  lia.

(** ** Machine integers *)

Lemma size_incr_decr (n : N) : n < SIZE_MAX -> size_decr (size_incr n) = n.
Proof. intros H. size_arith. Qed.

Lemma size_incr_nonzero (n : N) : n < SIZE_MAX -> size_incr n <> 0.
Proof. intros H. size_arith. Qed.

Lemma size_incr_wraps : size_incr SIZE_MAX = 0.
Proof. reflexivity. Qed.

Lemma size_sub_diag (n : N) : size_sub n n = 0.
Proof. size_arith. Qed.

Lemma size_sub_exact (a b : N) :
  b <= a -> a < SIZE_MODULUS -> size_sub a b = a - b.
Proof. intros Hb Ha. size_arith. Qed.

(** ** BufferStream *)

Lemma ReadBytes_zero (s : BufferStream) : ReadBytes s 0 = Ok ([], s).
Proof. reflexivity. Qed.

Lemma ReadBytes_too_large (s : BufferStream) (aSize : N) :
  mInputSize s < aSize -> ReadBytes s aSize = Fatal.
Proof.
  intros Hlt. unfold ReadBytes.
  destruct (N.eqb_spec aSize 0) as [-> | _]; [lia |].
  destruct (mInput s) as [buf |]; cbn; [| reflexivity].
  destruct (N.leb_spec aSize (mInputSize s)); [lia | reflexivity].
Qed.

Lemma ReadBytes_in_range (s : BufferStream) (buf : list byte) (aSize : N) :
  mInput s = Some buf -> aSize <> 0 -> aSize <= mInputSize s ->
  ReadBytes s aSize =
    Ok (take (N.to_nat aSize) buf,
        {| mOutput := mOutput s;
           mInput := Some (drop (N.to_nat aSize) buf);
           mInputSize := size_sub (mInputSize s) aSize |}).
Proof.
  intros Hin Hnz Hle. unfold ReadBytes.
  destruct (N.eqb_spec aSize 0) as [? | _]; [contradiction |].
  rewrite Hin; cbn.
  destruct (N.leb_spec aSize (mInputSize s)); [reflexivity | lia].
Qed.

(** C8. On an input stream (its [mInput] is not null) whose buffer holds
    the [mInputSize] bytes that remain, reading exactly that many bytes
    returns, copies those bytes, and leaves a stream on which [IsEmpty]
    returns true and whose remaining size is zero; and on any stream a read
    of more bytes than remain aborts. *)
Theorem ReadBytes_exact_leaves_empty (s : BufferStream) (buf : list byte) :
  mInput s = Some buf ->
  (N.to_nat (mInputSize s) <= length buf)%nat ->
  (exists s',
      ReadBytes s (mInputSize s) = Ok (take (N.to_nat (mInputSize s)) buf, s')
      /\ length (take (N.to_nat (mInputSize s)) buf) = N.to_nat (mInputSize s)
      /\ IsEmpty s' = Ok true
      /\ mInputSize s' = 0)
  /\ (forall aSize : N, mInputSize s < aSize -> ReadBytes s aSize = Fatal).
Proof.
  intros Hin Hlen. split; [| apply ReadBytes_too_large].
  destruct (N.eq_dec (mInputSize s) 0) as [Hz | Hnz].
  - exists s. rewrite Hz, ReadBytes_zero. cbn.
    unfold IsEmpty. rewrite Hin, Hz. auto.
  - eexists. rewrite (ReadBytes_in_range s buf) by (auto; lia).
    split; [reflexivity |].
    split; [rewrite length_take; lia |].
    unfold IsEmpty; cbn. rewrite size_sub_diag. auto.
Qed.

Lemma ReadBytes_exact_leaves_empty_witness :
  exists s',
    ReadBytes sample_input 8
    = Ok ([x10; x11; x12; x13; x14; x15; x16; x17]%byte, s')
    /\ IsEmpty s' = Ok true.
Proof.
  destruct (ReadBytes_exact_leaves_empty sample_input
              [x10; x11; x12; x13; x14; x15; x16; x17]%byte)
    as [[s' (Hread & _ & Hempty & _)] _].
  - reflexivity.
  - vm_compute. lia.
  - exists s'. split; [exact Hread | exact Hempty].
Defined.

(** ** Thread: access gating *)

Lemma AreEventsDisallowed_counter (t : Thread) :
  AreEventsDisallowed t = true <-> 0 < mDisallowEvents t.
Proof.
  unfold AreEventsDisallowed.
  destruct (N.eqb_spec (mDisallowEvents t) 0); cbn; split; intros; try lia;
    congruence.
Qed.

(** C2. [CanAccessRecording] returns true exactly when the thread does not
    pass events through, its disallow counter is zero, and it has not
    diverged from the recording. *)
Theorem CanAccessRecording_iff (t : Thread) :
  CanAccessRecording t = true <->
  PassThroughEvents t = false
  /\ mDisallowEvents t = 0
  /\ HasDivergedFromRecording t = false.
Proof.
  unfold CanAccessRecording, AreEventsDisallowed, PassThroughEvents,
    HasDivergedFromRecording.
  destruct (mPassThroughEvents t), (mDivergedFromRecording t),
    (N.eqb_spec (mDisallowEvents t) 0); cbn; intuition congruence.
Qed.

Lemma CanAccessRecording_false (t : Thread) :
  CanAccessRecording t = false <->
  PassThroughEvents t = true
  \/ AreEventsDisallowed t = true
  \/ HasDivergedFromRecording t = true.
Proof.
  unfold CanAccessRecording.
  destruct (PassThroughEvents t), (AreEventsDisallowed t),
    (HasDivergedFromRecording t); cbn; intuition congruence.
Qed.

(** ** Thread: the disallow counter *)

Lemma BeginDisallowEvents_counter (t : Thread) :
  mDisallowEvents (BeginDisallowEvents t) = size_incr (mDisallowEvents t).
Proof. reflexivity. Qed.

Lemma EndDisallowEvents_zero (t : Thread) :
  mDisallowEvents t = 0 -> EndDisallowEvents t = Fatal.
Proof. intros H. unfold EndDisallowEvents. rewrite H. reflexivity. Qed.

Lemma EndDisallowEvents_positive (t : Thread) :
  mDisallowEvents t <> 0 ->
  EndDisallowEvents t
  = Ok (set_mDisallowEvents (size_decr (mDisallowEvents t)) t).
Proof.
  intros H. unfold EndDisallowEvents.
  destruct (N.eqb_spec (mDisallowEvents t) 0); [contradiction | reflexivity].
Qed.

Lemma Begin_End_DisallowEvents (t : Thread) :
  mDisallowEvents t < SIZE_MAX ->
  EndDisallowEvents (BeginDisallowEvents t) = Ok t.
Proof.
  intros H. rewrite EndDisallowEvents_positive.
  - rewrite BeginDisallowEvents_counter, size_incr_decr by exact H.
    destruct t; reflexivity.
  - rewrite BeginDisallowEvents_counter. apply size_incr_nonzero, H.
Qed.

Lemma begin_n_S (k : nat) (t : Thread) :
  begin_n (S k) t = BeginDisallowEvents (begin_n k t).
Proof.
  revert t. induction k as [| k IH]; intros t; [reflexivity |].
  change (begin_n (S (S k)) t) with (begin_n (S k) (BeginDisallowEvents t)).
  rewrite IH. reflexivity.
Qed.

Lemma begin_n_counter (k : nat) (t : Thread) :
  mDisallowEvents t + N.of_nat k <= SIZE_MAX ->
  mDisallowEvents (begin_n k t) = mDisallowEvents t + N.of_nat k.
Proof.
  induction k as [| k IH]; intros H; [cbn; lia |].
  rewrite begin_n_S, BeginDisallowEvents_counter, IH by lia.
  size_arith.
Qed.

Lemma disallow_nesting (k : nat) (t : Thread) :
  mDisallowEvents t + N.of_nat k <= SIZE_MAX ->
  end_n k (begin_n k t) = Ok t.
Proof.
  induction k as [| k IH]; intros H; [reflexivity |].
  rewrite begin_n_S. cbn [end_n].
  rewrite Begin_End_DisallowEvents.
  - cbn. apply IH. lia.
  - rewrite begin_n_counter by lia. lia.
Qed.

(** At the largest [size_t] the increment wraps to zero: after
    [BeginDisallowEvents] events are not disallowed, and the matching
    [EndDisallowEvents] aborts instead of restoring the counter.  The
    counter is private and only moved by [++] and [--], so no run of fewer
    than [2^64 - 1] operations brings it there (see
    [disallow_counter_bound]). *)
Lemma Begin_End_DisallowEvents_saturated :
  AreEventsDisallowed (BeginDisallowEvents saturated_thread) = false
  /\ EndDisallowEvents (BeginDisallowEvents saturated_thread) = Fatal
  /\ ~ (exists t' : Thread,
          EndDisallowEvents (BeginDisallowEvents saturated_thread) = Ok t'
          /\ mDisallowEvents t' = mDisallowEvents saturated_thread).
Proof.
  assert (H : EndDisallowEvents (BeginDisallowEvents saturated_thread) = Fatal)
    by reflexivity.
  split; [reflexivity |]. split; [exact H |].
  intros [t' [Hok _]]. rewrite H in Hok. discriminate Hok.
Qed.

(** The counter, state by state.  Events are disallowed exactly while the
    counter is greater than zero; below the largest [size_t],
    [BeginDisallowEvents] followed by [EndDisallowEvents] returns and
    restores the thread, counter included; and [EndDisallowEvents] on a zero
    counter aborts. *)
Theorem disallow_counter (t : Thread) :
  (AreEventsDisallowed t = true <-> 0 < mDisallowEvents t)
  /\ (mDisallowEvents t < SIZE_MAX ->
      AreEventsDisallowed (BeginDisallowEvents t) = true
      /\ EndDisallowEvents (BeginDisallowEvents t) = Ok t)
  /\ (mDisallowEvents t = 0 -> EndDisallowEvents t = Fatal).
Proof.
  split; [apply AreEventsDisallowed_counter |].
  split; [| apply EndDisallowEvents_zero].
  intros H. split; [| apply Begin_End_DisallowEvents, H].
  apply AreEventsDisallowed_counter. rewrite BeginDisallowEvents_counter.
  pose proof (size_incr_nonzero _ H). lia.
Qed.

Lemma disallow_counter_witness :
  EndDisallowEvents (BeginDisallowEvents sample_thread) = Ok sample_thread
  /\ EndDisallowEvents sample_thread = Fatal.
Proof.
  destruct (disallow_counter sample_thread) as (_ & Hround & Hzero).
  split.
  - apply Hround. reflexivity.
  - apply Hzero. reflexivity.
Defined.

(** Each operation raises the counter by one at most. *)
Lemma thread_step_counter (op : ThreadOp) (t t' : Thread) (c c' : Coordination) :
  thread_step op (t, c) = Ok (t', c') ->
  mDisallowEvents t' <= mDisallowEvents t + 1.
Proof.
  intros Hstep. destruct op.
  - cbn in Hstep. unfold SetPassThrough in Hstep.
    destruct (bool_decide _); cbn in Hstep; [| discriminate].
    injection Hstep as <- _. cbn. lia.
  - cbn in Hstep. injection Hstep as <- _. cbn. size_arith.
  - cbn in Hstep. unfold EndDisallowEvents in Hstep.
    destruct (N.eqb_spec (mDisallowEvents t) 0) as [| Hnz]; cbn in Hstep;
      [discriminate |].
    injection Hstep as <- _. cbn. size_arith.
  - cbn in Hstep. injection Hstep as <- _. cbn. lia.
  - cbn in Hstep. unfold SetShouldDivergeFromRecording in Hstep.
    destruct (CurrentIsMainThread cur); cbn in Hstep; [| discriminate].
    injection Hstep as <- _. cbn. lia.
  - change (Ok ((MaybeDivergeFromRecording t).2, c) = Ok (t', c')) in Hstep.
    assert (Ht : t' = (MaybeDivergeFromRecording t).2) by congruence.
    rewrite Ht. unfold MaybeDivergeFromRecording.
    destruct (mShouldDivergeFromRecording t); cbn; lia.
Qed.

(** After a run the counter is at most its start value plus the number of
    operations of the run. *)
Lemma disallow_counter_bound
    (ops : list ThreadOp) (t0 t : Thread) (c0 c : Coordination) :
  thread_run ops (t0, c0) = Ok (t, c) ->
  mDisallowEvents t <= mDisallowEvents t0 + N.of_nat (length ops).
Proof.
  revert t0 c0. induction ops as [| op ops IH]; intros t0 c0 Hrun.
  - cbn in Hrun. injection Hrun as <- _. cbn. lia.
  - cbn [thread_run] in Hrun.
    destruct (thread_step op (t0, c0)) as [[t1 c1] | |] eqn:Hstep;
      cbn in Hrun; try discriminate.
    pose proof (thread_step_counter _ _ _ _ _ Hstep).
    pose proof (IH _ _ Hrun). cbn [length]. lia.
Qed.

(** C7. On every thread that a run of operations reaches, the run being
    too short to bring the counter to the largest [size_t] (from a counter
    at zero: any run of fewer than [2^64 - 1] operations): events are
    disallowed exactly while the counter is greater than zero;
    [BeginDisallowEvents] disallows events and the [EndDisallowEvents] that
    follows returns and leaves the counter, and the whole thread,
    unchanged; and [EndDisallowEvents] on a counter at zero aborts, it
    neither wraps nor returns. *)
Theorem disallow_counter_reentrant
    (ops : list ThreadOp) (t0 t : Thread) (c0 c : Coordination) :
  thread_run ops (t0, c0) = Ok (t, c) ->
  mDisallowEvents t0 + N.of_nat (length ops) < SIZE_MAX ->
  (AreEventsDisallowed t = true <-> 0 < mDisallowEvents t)
  /\ AreEventsDisallowed (BeginDisallowEvents t) = true
  /\ EndDisallowEvents (BeginDisallowEvents t) = Ok t
  /\ (forall t' : Thread,
        EndDisallowEvents (BeginDisallowEvents t) = Ok t' ->
        mDisallowEvents t' = mDisallowEvents t)
  /\ (mDisallowEvents t = 0 ->
      EndDisallowEvents t = Fatal
      /\ forall t' : Thread, EndDisallowEvents t <> Ok t').
Proof.
  intros Hrun Hshort.
  assert (Hbelow : mDisallowEvents t < SIZE_MAX)
    by (pose proof (disallow_counter_bound _ _ _ _ _ Hrun); lia).
  assert (Hround : EndDisallowEvents (BeginDisallowEvents t) = Ok t)
    by (apply Begin_End_DisallowEvents, Hbelow).
  split; [apply AreEventsDisallowed_counter |].
  split.
  { apply AreEventsDisallowed_counter. rewrite BeginDisallowEvents_counter.
    pose proof (size_incr_nonzero _ Hbelow). lia. }
  split; [exact Hround |].
  split.
  { intros t' Hok. rewrite Hround in Hok. injection Hok as <-. reflexivity. }
  intros Hzero. rewrite (EndDisallowEvents_zero _ Hzero).
  split; [reflexivity | discriminate].
Qed.

Lemma disallow_counter_reentrant_witness :
  EndDisallowEvents (BeginDisallowEvents (BeginDisallowEvents sample_thread))
  = Ok (BeginDisallowEvents sample_thread)
  /\ EndDisallowEvents sample_thread = Fatal.
Proof.
  split.
  - apply (disallow_counter_reentrant
             [OpBeginDisallowEvents; OpBeginDisallowEvents; OpEndDisallowEvents]
             sample_thread (BeginDisallowEvents sample_thread)
             coord_init coord_init).
    + reflexivity.
    + reflexivity.
  - apply (disallow_counter_reentrant [] sample_thread sample_thread
             coord_init coord_init).
    + reflexivity.
    + reflexivity.
    + reflexivity.
Defined.

(** ** Thread: divergence *)

Lemma MaybeDivergeFromRecording_flag (t : Thread) :
  mDivergedFromRecording (MaybeDivergeFromRecording t).2
  = mShouldDivergeFromRecording t || mDivergedFromRecording t.
Proof.
  unfold MaybeDivergeFromRecording.
  destruct (mShouldDivergeFromRecording t); reflexivity.
Qed.

Lemma MaybeDivergeFromRecording_result (t : Thread) :
  (MaybeDivergeFromRecording t).1
  = mDivergedFromRecording (MaybeDivergeFromRecording t).2.
Proof. reflexivity. Qed.

Lemma MaybeDivergeFromRecording_frame (t : Thread) :
  (MaybeDivergeFromRecording t).2
  = set_mDivergedFromRecording
      (mShouldDivergeFromRecording t || mDivergedFromRecording t) t.
Proof.
  unfold MaybeDivergeFromRecording.
  destruct (mShouldDivergeFromRecording t); [reflexivity |].
  destruct t; reflexivity.
Qed.

(** What each operation other than [MaybeDivergeFromRecording] does to the
    sticky flag: it never reads [mShouldDivergeFromRecording]. *)
Lemma thread_step_diverged (op : ThreadOp) (t t' : Thread) (c c' : Coordination) :
  op <> OpMaybeDivergeFromRecording ->
  thread_step op (t, c) = Ok (t', c') ->
  mDivergedFromRecording t'
  = match op with
    | OpDivergeFromRecording => true
    | _ => mDivergedFromRecording t
    end.
Proof.
  intros Hop Hstep. destruct op; cbn in Hstep.
  - unfold SetPassThrough in Hstep.
    destruct (bool_decide _); cbn in Hstep; [| discriminate].
    injection Hstep as <- _. reflexivity.
  - injection Hstep as <- _. reflexivity.
  - unfold EndDisallowEvents in Hstep.
    destruct (negb _); cbn in Hstep; [| discriminate].
    injection Hstep as <- _. reflexivity.
  - injection Hstep as <- _. reflexivity.
  - unfold SetShouldDivergeFromRecording in Hstep.
    destruct (CurrentIsMainThread cur); cbn in Hstep; [| discriminate].
    injection Hstep as <- _. reflexivity.
  - contradiction.
Qed.

(** C3. [MaybeDivergeFromRecording] sets [mDivergedFromRecording] when
    [mShouldDivergeFromRecording] is set and leaves the thread unchanged
    otherwise, touches no other field, and returns the resulting flag; every
    other operation leaves in the flag a value that does not depend on
    [mShouldDivergeFromRecording]. *)
Theorem MaybeDivergeFromRecording_promotes (t : Thread) :
  (mShouldDivergeFromRecording t = true ->
   mDivergedFromRecording (MaybeDivergeFromRecording t).2 = true)
  /\ (mShouldDivergeFromRecording t = false ->
      (MaybeDivergeFromRecording t).2 = t)
  /\ (MaybeDivergeFromRecording t).2
     = set_mDivergedFromRecording
         (mDivergedFromRecording (MaybeDivergeFromRecording t).2) t
  /\ (MaybeDivergeFromRecording t).1
     = mDivergedFromRecording (MaybeDivergeFromRecording t).2
  /\ (forall (op : ThreadOp) (b : bool) (c : Coordination)
             (t1 t2 : Thread) (c1 c2 : Coordination),
         op <> OpMaybeDivergeFromRecording ->
         thread_step op (t, c) = Ok (t1, c1) ->
         thread_step op (set_mShouldDivergeFromRecording b t, c) = Ok (t2, c2) ->
         mDivergedFromRecording t2 = mDivergedFromRecording t1).
Proof.
  split; [| split; [| split; [| split]]].
  - intros H. rewrite MaybeDivergeFromRecording_flag, H. reflexivity.
  - intros H. unfold MaybeDivergeFromRecording. rewrite H. reflexivity.
  - rewrite MaybeDivergeFromRecording_flag.
    apply MaybeDivergeFromRecording_frame.
  - apply MaybeDivergeFromRecording_result.
  - intros op b c t1 t2 c1 c2 Hop H1 H2.
    rewrite (thread_step_diverged _ _ _ _ _ Hop H1).
    rewrite (thread_step_diverged _ _ _ _ _ Hop H2).
    reflexivity.
Qed.

Lemma MaybeDivergeFromRecording_promotes_witness :
  mDivergedFromRecording
    (MaybeDivergeFromRecording
       (set_mShouldDivergeFromRecording true sample_thread)).2 = true
  /\ (MaybeDivergeFromRecording sample_thread).2 = sample_thread.
Proof.
  split.
  - destruct (MaybeDivergeFromRecording_promotes
                (set_mShouldDivergeFromRecording true sample_thread))
      as (Hset & _).
    apply Hset. reflexivity.
  - destruct (MaybeDivergeFromRecording_promotes sample_thread)
      as (_ & Hkeep & _).
    apply Hkeep. reflexivity.
Defined.

Lemma thread_step_keeps_diverged (op : ThreadOp) (t t' : Thread) (c c' : Coordination) :
  thread_step op (t, c) = Ok (t', c') ->
  HasDivergedFromRecording t = true ->
  HasDivergedFromRecording t' = true.
Proof.
  unfold HasDivergedFromRecording. intros Hstep Hdiv.
  assert (Hcases : op = OpMaybeDivergeFromRecording
                   \/ op <> OpMaybeDivergeFromRecording)
    by (destruct op; (left; reflexivity) || (right; discriminate)).
  destruct Hcases as [-> | Hop].
  - change (Ok ((MaybeDivergeFromRecording t).2, c) = Ok (t', c')) in Hstep.
    assert (Ht : t' = (MaybeDivergeFromRecording t).2) by congruence.
    rewrite Ht, MaybeDivergeFromRecording_flag, Hdiv.
    apply orb_true_r.
  - rewrite (thread_step_diverged _ _ _ _ _ Hop Hstep).
    destruct op; auto.
Qed.

(** C4. Along any sequence of operations of the thread (none of which is a
    rewind), once [HasDivergedFromRecording] has returned true it returns
    true after every later operation. *)
Theorem diverged_is_sticky
    (ops : list ThreadOp) (t t' : Thread) (c c' : Coordination) :
  thread_run ops (t, c) = Ok (t', c') ->
  HasDivergedFromRecording t = true ->
  HasDivergedFromRecording t' = true.
Proof.
  revert t c. induction ops as [| op ops IH]; intros t c Hrun Hdiv.
  - cbn in Hrun. injection Hrun as <- _. exact Hdiv.
  - cbn [thread_run] in Hrun.
    destruct (thread_step op (t, c)) as [[t1 c1] | |] eqn:Hstep;
      cbn in Hrun; try discriminate.
    apply (IH t1 c1 Hrun).
    apply (thread_step_keeps_diverged _ _ _ _ _ Hstep Hdiv).
Qed.

Lemma diverged_is_sticky_witness :
  HasDivergedFromRecording
    (set_mDisallowEvents 1
       (set_mShouldDivergeFromRecording true
          (DivergeFromRecording sample_thread))) = true.
Proof.
  apply (diverged_is_sticky
           [OpBeginDisallowEvents;
            OpSetShouldDivergeFromRecording (Some MainThreadId);
            OpMaybeDivergeFromRecording]
           (DivergeFromRecording sample_thread) _ coord_init
           (Notify 2 coord_init)).
  - reflexivity.
  - reflexivity.
Defined.

(** ** Thread: SetShouldDivergeFromRecording *)

Lemma CurrentIsMainThread_iff (cur : option N) :
  CurrentIsMainThread cur = true <-> cur = Some MainThreadId.
Proof.
  destruct cur as [i |]; cbn; [| split; discriminate].
  destruct (N.eqb_spec i MainThreadId); split; congruence.
Qed.

Lemma pending_Notify (aId : N) (c : Coordination) :
  pending (Notify aId c) aId = S (pending c aId).
Proof. unfold pending at 1, Notify; cbn. by rewrite lookup_insert_eq. Qed.

Lemma pending_Notify_other (aId j : N) (c : Coordination) :
  aId <> j -> pending (Notify aId c) j = pending c j.
Proof.
  intros Hne. unfold pending, Notify; cbn. by rewrite lookup_insert_ne.
Qed.

(** C10. [SetShouldDivergeFromRecording] aborts unless its caller is the
    main thread; called from the main thread it returns, having set
    [mShouldDivergeFromRecording] (and nothing else in the thread) and sent
    one [Notify] on the thread's own id. *)
Theorem SetShouldDivergeFromRecording_main_only
    (cur : option N) (t : Thread) (c : Coordination) :
  (cur <> Some MainThreadId ->
   SetShouldDivergeFromRecording cur t c = Fatal)
  /\ (cur = Some MainThreadId ->
      SetShouldDivergeFromRecording cur t c
      = Ok (set_mShouldDivergeFromRecording true t, Notify (Id t) c)
      /\ mShouldDivergeFromRecording (set_mShouldDivergeFromRecording true t)
         = true
      /\ pending (Notify (Id t) c) (Id t) = S (pending c (Id t))).
Proof.
  unfold SetShouldDivergeFromRecording. split.
  - intros Hcur.
    destruct (CurrentIsMainThread cur) eqn:Hmain; [| reflexivity].
    apply CurrentIsMainThread_iff in Hmain. contradiction.
  - intros ->. split; [reflexivity |]. split; [reflexivity |].
    apply pending_Notify.
Qed.

Lemma SetShouldDivergeFromRecording_main_only_witness :
  SetShouldDivergeFromRecording (Some 2) sample_thread coord_init = Fatal
  /\ SetShouldDivergeFromRecording (Some 1) sample_thread coord_init
     = Ok (set_mShouldDivergeFromRecording true sample_thread,
           Notify 2 coord_init).
Proof.
  split.
  - apply (SetShouldDivergeFromRecording_main_only
             (Some 2) sample_thread coord_init).
    discriminate.
  - apply (SetShouldDivergeFromRecording_main_only
             (Some 1) sample_thread coord_init).
    reflexivity.
Defined.

(** ** RecordingEventSection: CanAccessEvents *)

(** Without tolerance, a thread whose events are disallowed makes
    [CanAccessEvents] abort. *)
Lemma CanAccessEvents_disallowed_fatal (t : Thread) :
  PassThroughEvents t = false -> HasDivergedFromRecording t = false ->
  AreEventsDisallowed t = true ->
  CanAccessEvents (Some t) false = Fatal.
Proof.
  intros Hp Hd Ha. unfold CanAccessEvents, CanAccessRecording.
  rewrite Hp, Hd, Ha. reflexivity.
Qed.

(** C9. [CanAccessEvents] returns false on a thread that passes events
    through or has diverged; with [aTolerateDisallowedEvents] it returns
    false, without aborting, on a thread whose events are disallowed; and
    when it returns true the thread can access the recording. *)
Theorem CanAccessEvents_sound (t : Thread) (aTolerateDisallowedEvents : bool) :
  (PassThroughEvents t = true \/ HasDivergedFromRecording t = true ->
   CanAccessEvents (Some t) aTolerateDisallowedEvents = Ok false)
  /\ (aTolerateDisallowedEvents = true -> AreEventsDisallowed t = true ->
      CanAccessEvents (Some t) aTolerateDisallowedEvents = Ok false)
  /\ (CanAccessEvents (Some t) aTolerateDisallowedEvents = Ok true ->
      CanAccessRecording t = true).
Proof.
  unfold CanAccessEvents, CanAccessRecording.
  destruct (PassThroughEvents t), (HasDivergedFromRecording t),
    (AreEventsDisallowed t), aTolerateDisallowedEvents; cbn;
    repeat split; intros; try reflexivity; try discriminate;
    intuition discriminate.
Qed.

Lemma CanAccessEvents_sound_witness :
  CanAccessEvents (Some (DivergeFromRecording sample_thread)) false = Ok false
  /\ CanAccessEvents (Some (BeginDisallowEvents sample_thread)) true = Ok false
  /\ CanAccessRecording sample_thread = true.
Proof.
  split; [| split].
  - destruct (CanAccessEvents_sound (DivergeFromRecording sample_thread) false)
      as (H & _).
    apply H. right. reflexivity.
  - destruct (CanAccessEvents_sound (BeginDisallowEvents sample_thread) true)
      as (_ & H & _).
    apply H; reflexivity.
  - destruct (CanAccessEvents_sound sample_thread false) as (_ & _ & H).
    apply H. reflexivity.
Defined.

(** ** Coordination: Wait and Notify *)

Lemma Notify_waiting (aId : N) (c : Coordination) :
  cWaiting (Notify aId c) = cWaiting c.
Proof. reflexivity. Qed.


Lemma WaitReturn_Some (aId : N) (c c' : Coordination) :
  WaitReturn aId c = Some c' <->
  aId ∈ cWaiting c
  /\ exists n : nat,
       pending c aId = S n
       /\ c' = {| cPending := <[aId := n]> (cPending c);
                  cWaiting := cWaiting c ∖ {[aId]} |}.
Proof.
  unfold WaitReturn. case_bool_decide as Hin; split.
  - destruct (pending c aId) as [| n]; [discriminate |].
    intros [= <-]. eauto.
  - intros [_ (n & -> & ->)]. reflexivity.
  - discriminate.
  - intros [Hw _]. contradiction.
Qed.


Lemma WaitReturn_needs_call (aId : N) (c : Coordination) :
  aId ∉ cWaiting c -> WaitReturn aId c = None.
Proof.
  intros Hw. destruct (WaitReturn aId c) as [c' |] eqn:Hret; [| reflexivity].
  apply WaitReturn_Some in Hret as [Hin _]. contradiction.
Qed.











(** One notification serves one [Wait]: the second return is refused. *)
Example one_Notify_one_return :
  coord_run coord_init
    [EvNotify 2; EvWaitCall 2; EvWaitReturn 2; EvWaitCall 2; EvWaitReturn 2]
  = None.
Proof. vm_compute. reflexivity. Qed.

(** Two notifications and one [Wait] leave one notification pending. *)
Example two_Notify_one_Wait :
  (fun c => pending c 2) <$>
    coord_run coord_init [EvNotify 2; EvNotify 2; EvWaitCall 2; EvWaitReturn 2]
  = Some 1%nat.
Proof. vm_compute. reflexivity. Qed.

(** ** RecordingEventSection: construction and destruction *)

Lemma set_mInRecordingEventSection_undo (t : Thread) :
  mInRecordingEventSection (Events t) = false ->
  set_mInRecordingEventSection false (set_mInRecordingEventSection true t) = t.
Proof.
  destruct t as [i p d dv sh [log pos mark]]; cbn. intros ->. reflexivity.
Qed.

Lemma CanAccessRecording_in_section (b : bool) (t : Thread) :
  CanAccessRecording (set_mInRecordingEventSection b t) = CanAccessRecording t.
Proof. reflexivity. Qed.

Lemma ReadLock_ReadUnlock (l l1 : ReadWriteLock) :
  ReadLock l = Ok l1 ->
  lReaders l1 = S (lReaders l) /\ ReadUnlock l1 = l.
Proof.
  unfold ReadLock. destruct l as [n wr]; cbn.
  destruct wr; [discriminate |]. intros [= <-]. split; reflexivity.
Qed.

Section RecordingEventSectionProperties.

Variable Env : Type.
Variable HitEndOfRecording : Thread -> World Env -> result (Thread * World Env).

Local Abbreviation ctor := (RecordingEventSection_ctor HitEndOfRecording).
Local Abbreviation loop := (replay_loop HitEndOfRecording).
Local Abbreviation iter := (handler_iter HitEndOfRecording).

Lemma ctor_no_access (fuel : nat) (t : Thread) (w : World Env) :
  CanAccessRecording t = false -> ctor fuel (Some t) w = Some (Ok (Some t, w)).
Proof.
  intros H. unfold RecordingEventSection_ctor. rewrite H. reflexivity.
Qed.

Lemma dtor_no_access (t : Thread) (w : World Env) :
  CanAccessRecording t = false ->
  RecordingEventSection_dtor (Some t) w = (Some t, w).
Proof.
  intros H. unfold RecordingEventSection_dtor. rewrite H. reflexivity.
Qed.

Lemma ctor_recording (fuel : nat) (t : Thread) (w : World Env) :
  IsRecording w = true -> CanAccessRecording t = true ->
  ctor fuel (Some t) w
  = Some (MOZ_RELEASE_ASSERT (negb (mInRecordingEventSection (Events t)));;
          l ← ReadLock (mStreamLock w);
          Ok (Some (set_mInRecordingEventSection true t),
              set_mStreamLock l w)).
Proof.
  intros Hrec Hacc. unfold RecordingEventSection_ctor.
  rewrite Hacc, Hrec. reflexivity.
Qed.

(** A section cannot be entered twice. *)
Lemma ctor_nested_fatal (fuel : nat) (t : Thread) (w : World Env) :
  IsRecording w = true -> CanAccessRecording t = true ->
  mInRecordingEventSection (Events t) = true ->
  ctor fuel (Some t) w = Some Fatal.
Proof.
  intros Hrec Hacc Hin. rewrite ctor_recording by assumption.
  rewrite Hin. reflexivity.
Qed.

(** A diverged thread goes through a section unchanged. *)
Lemma section_keeps_diverged (fuel : nat) (t : Thread) (w : World Env) :
  HasDivergedFromRecording t = true ->
  ctor fuel (Some t) w = Some (Ok (Some t, w))
  /\ RecordingEventSection_dtor (Some t) w = (Some t, w).
Proof.
  intros Hdiv.
  assert (Hacc : CanAccessRecording t = false)
    by (apply CanAccessRecording_false; auto).
  split; [apply ctor_no_access | apply dtor_no_access]; exact Hacc.
Qed.

(** C5. While recording, on a thread that can access the recording:
    when the constructor returns it has taken one read lock and set the
    marker, which was clear; the destructor then releases that lock and
    clears the marker, which gives back the thread and the world as they
    were before the constructor.  The constructor does return when the
    marker is clear and no writer holds the lock.  On a thread that cannot
    access the recording (diverged, passing through, or disallowed) the
    destructor changes nothing. *)
Theorem RecordingEventSection_dtor_undoes_ctor
    (fuel : nat) (t : Thread) (w : World Env) :
  (IsRecording w = true -> CanAccessRecording t = true ->
   (forall (r : option Thread) (w1 : World Env),
       ctor fuel (Some t) w = Some (Ok (r, w1)) ->
       mInRecordingEventSection (Events t) = false
       /\ r = Some (set_mInRecordingEventSection true t)
       /\ ReadLock (mStreamLock w) = Ok (mStreamLock w1)
       /\ lReaders (mStreamLock w1) = S (lReaders (mStreamLock w))
       /\ RecordingEventSection_dtor r w1 = (Some t, w))
   /\ (mInRecordingEventSection (Events t) = false ->
       lWriter (mStreamLock w) = false ->
       exists (t1 : Thread) (w1 : World Env),
         ctor fuel (Some t) w = Some (Ok (Some t1, w1))))
  /\ (CanAccessRecording t = false ->
      RecordingEventSection_dtor (Some t) w = (Some t, w)).
Proof.
  split; [| apply dtor_no_access].
  intros Hrec Hacc. split.
  - intros r w1 Hctor. rewrite ctor_recording in Hctor by assumption.
    destruct (mInRecordingEventSection (Events t)) eqn:Hin;
      cbn in Hctor; [discriminate |].
    destruct (ReadLock (mStreamLock w)) as [l | |] eqn:Hlock;
      cbn in Hctor; try discriminate.
    injection Hctor as <- <-.
    destruct (ReadLock_ReadUnlock _ _ Hlock) as [Hreaders Hunlock].
    split; [reflexivity |]. split; [reflexivity |].
    split; [reflexivity |]. split; [exact Hreaders |].
    unfold RecordingEventSection_dtor.
    rewrite CanAccessRecording_in_section, Hacc. cbn.
    rewrite Hrec, Hunlock, set_mInRecordingEventSection_undo by exact Hin.
    destruct w; reflexivity.
  - intros Hin Hwr. rewrite ctor_recording by assumption.
    rewrite Hin. unfold ReadLock. rewrite Hwr. cbn. eauto.
Qed.

End RecordingEventSectionProperties.

Lemma RecordingEventSection_dtor_undoes_ctor_witness :
  exists (t1 : Thread) (w1 : World nat),
    RecordingEventSection_ctor sample_handler 0 (Some sample_thread)
      recording_world = Some (Ok (Some t1, w1))
    /\ lReaders (mStreamLock w1) = 2%nat
    /\ RecordingEventSection_dtor (Some t1) w1
       = (Some sample_thread, recording_world).
Proof.
  destruct (RecordingEventSection_dtor_undoes_ctor nat sample_handler 0
              sample_thread recording_world) as [Hrecording _].
  destruct Hrecording as [Hundo Hreturns]; [reflexivity | reflexivity |].
  destruct Hreturns as (t1 & w1 & Hctor); [reflexivity | reflexivity |].
  exists t1, w1. split; [exact Hctor |].
  destruct (Hundo _ _ Hctor) as (_ & _ & _ & Hreaders & Hdtor).
  split; [exact Hreaders | exact Hdtor].
Defined.

(** ** RecordingEventSection: the replay loop *)

Section ReplayLoop.

Variable Env : Type.
Variable HitEndOfRecording : Thread -> World Env -> result (Thread * World Env).

Local Abbreviation ctor := (RecordingEventSection_ctor HitEndOfRecording).
Local Abbreviation loop := (replay_loop HitEndOfRecording).
Local Abbreviation iter := (handler_iter HitEndOfRecording).

(** The thread as the loop condition leaves it. *)
Local Abbreviation checked t := ((MaybeDivergeFromRecording t).2).

Lemma replay_loop_S (fuel : nat) (t : Thread) (w : World Env) :
  loop (S fuel) t w
  = if must_wait t then
      match HitEndOfRecording (checked t) w with
      | Ok (t2, w2) => loop fuel t2 w2
      | Fatal => Some Fatal
      | Blocked => Some Blocked
      end
    else Some (Ok (checked t, w)).
Proof.
  unfold must_wait. cbn [replay_loop].
  destruct (MaybeDivergeFromRecording t) as [diverged t1]. reflexivity.
Qed.

Lemma handler_iter_S (k : nat) (t t2 : Thread) (w w2 : World Env) :
  HitEndOfRecording (checked t) w = Ok (t2, w2) ->
  iter (S k) t w = iter k t2 w2.
Proof. intros H. cbn [handler_iter]. rewrite H. reflexivity. Qed.

(** When the condition is false the thread has diverged or its stream has
    data. *)
Lemma must_wait_false (t : Thread) :
  must_wait t = false ->
  HasDivergedFromRecording (checked t) = true
  \/ AtEnd (Events (checked t)) = false.
Proof.
  unfold must_wait, HasDivergedFromRecording.
  rewrite MaybeDivergeFromRecording_result.
  destruct (mDivergedFromRecording (checked t)); cbn; auto.
Qed.

Lemma must_wait_true (t : Thread) :
  must_wait t = true ->
  mShouldDivergeFromRecording t = false
  /\ HasDivergedFromRecording t = false
  /\ AtEnd (Events t) = true.
Proof.
  unfold must_wait, HasDivergedFromRecording.
  rewrite MaybeDivergeFromRecording_result,
    MaybeDivergeFromRecording_frame.
  destruct (mShouldDivergeFromRecording t), (mDivergedFromRecording t);
    cbn; try discriminate. auto.
Qed.

Lemma replay_loop_sound (fuel : nat) (t t' : Thread) (w w' : World Env) :
  loop fuel t w = Some (Ok (t', w')) ->
  exists k : nat,
    (k < fuel)%nat /\ waits_then_exits HitEndOfRecording k t w t' w'.
Proof.
  revert t w. induction fuel as [| fuel IH]; intros t w Hloop;
    [discriminate |].
  rewrite replay_loop_S in Hloop.
  destruct (must_wait t) eqn:Hwait.
  - destruct (HitEndOfRecording (checked t) w) as [[t2 w2] | |] eqn:Hhit;
      try discriminate.
    destruct (IH _ _ Hloop) as (k & Hk & Hbefore & tk & Hiter & Hexit & Ht').
    exists (S k). split; [lia |]. split.
    + intros [| i] Hi.
      * exists t, w. split; [reflexivity | exact Hwait].
      * rewrite (handler_iter_S _ _ _ _ _ Hhit). apply Hbefore. lia.
    + exists tk. rewrite (handler_iter_S _ _ _ _ _ Hhit). auto.
  - injection Hloop as <- <-. exists 0%nat. split; [lia |]. split.
    + intros i Hi. lia.
    + exists t. auto.
Qed.

Lemma replay_loop_complete (fuel k : nat) (t t' : Thread) (w w' : World Env) :
  (k < fuel)%nat -> waits_then_exits HitEndOfRecording k t w t' w' ->
  loop fuel t w = Some (Ok (t', w')).
Proof.
  revert fuel t w. induction k as [| k IH];
    intros [| fuel] t w Hk (Hbefore & tk & Hiter & Hexit & ->); try lia;
    rewrite replay_loop_S.
  - cbn in Hiter. injection Hiter as <- <-. rewrite Hexit. reflexivity.
  - destruct (Hbefore 0%nat) as (t0 & w0 & H0 & Hwait); [lia |].
    cbn in H0. injection H0 as <- <-. rewrite Hwait.
    destruct (HitEndOfRecording (checked t) w) as [[t2 w2] | |] eqn:Hhit;
      try (cbn [handler_iter] in Hiter; rewrite Hhit in Hiter;
           discriminate Hiter).
    apply (IH fuel); [lia |]. split.
    + intros i Hi. rewrite <- (handler_iter_S _ _ _ _ _ Hhit).
      apply Hbefore. lia.
    + exists tk. rewrite <- (handler_iter_S _ _ _ _ _ Hhit). auto.
Qed.

Lemma ctor_replaying (fuel : nat) (t : Thread) (w : World Env) :
  IsRecording w = false -> CanAccessRecording t = true ->
  ctor fuel (Some t) w
  = r ← loop fuel t w; Some (p ← r; Ok (Some p.1, p.2)).
Proof.
  intros Hrec Hacc. unfold RecordingEventSection_ctor.
  rewrite Hacc, Hrec. reflexivity.
Qed.

(** C1. On a thread that cannot access the recording the constructor
    returns at once and changes nothing.  While replaying, on a thread that
    can: if the constructor returns, then for some [k] the handler was
    called [k] times, each time on a thread that had not diverged and whose
    stream was at its end, and the constructor returned after the [k]-th
    call with the thread diverged or its stream holding data; and whenever
    the handler leads to such a state after [k] calls, the constructor does
    return, given more than [k] rounds of fuel. *)
Theorem RecordingEventSection_ctor_replay
    (fuel : nat) (t : Thread) (w : World Env) :
  (CanAccessRecording t = false ->
   ctor fuel (Some t) w = Some (Ok (Some t, w)))
  /\ (IsRecording w = false -> CanAccessRecording t = true ->
      (forall (r : option Thread) (w' : World Env),
          ctor fuel (Some t) w = Some (Ok (r, w')) ->
          exists (k : nat) (t' : Thread),
            r = Some t'
            /\ (k < fuel)%nat
            /\ waits_then_exits HitEndOfRecording k t w t' w'
            /\ (HasDivergedFromRecording t' = true
                \/ AtEnd (Events t') = false))
      /\ (forall (k : nat) (t' : Thread) (w' : World Env),
             (k < fuel)%nat ->
             waits_then_exits HitEndOfRecording k t w t' w' ->
             ctor fuel (Some t) w = Some (Ok (Some t', w')))).
Proof.
  split; [apply ctor_no_access |].
  intros Hrec Hacc. rewrite ctor_replaying by assumption. split.
  - intros r w' Hctor.
    destruct (loop fuel t w) as [[[t' w1] | |] |] eqn:Hloop;
      cbn in Hctor; try discriminate.
    injection Hctor as <- <-.
    destruct (replay_loop_sound _ _ _ _ _ Hloop) as (k & Hk & Hrun).
    exists k, t'. split; [reflexivity |]. split; [exact Hk |].
    split; [exact Hrun |].
    destruct Hrun as (_ & tk & _ & Hexit & ->).
    apply must_wait_false, Hexit.
  - intros k t' w' Hk Hrun.
    rewrite (replay_loop_complete _ _ _ _ _ _ Hk Hrun). reflexivity.
Qed.

End ReplayLoop.

Lemma RecordingEventSection_ctor_replay_witness :
  exists (k : nat) (t' : Thread),
    RecordingEventSection_ctor sample_handler 4 (Some sample_thread)
      replaying_world
    = Some (Ok (Some t', mkWorld false (mkReadWriteLock 0 false) 0%nat))
    /\ (k < 4)%nat
    /\ (HasDivergedFromRecording t' = true \/ AtEnd (Events t') = false).
Proof.
  destruct (RecordingEventSection_ctor_replay nat sample_handler 4
              sample_thread replaying_world) as [_ Hreplay].
  destruct Hreplay as [Hreturned _]; [reflexivity | reflexivity |].
  destruct (Hreturned
              (Some (set_mDivergedFromRecording true
                       (set_mShouldDivergeFromRecording true sample_thread)))
              (mkWorld false (mkReadWriteLock 0 false) 0%nat))
    as (k & t' & Hr & Hk & _ & Hexit); [reflexivity |].
  exists k, t'. rewrite <- Hr. split; [reflexivity |]. split; assumption.
Defined.

(** The handler is called three times on the sample: two rounds of fuel
    less and the loop is still running. *)
Example replay_loop_sample_fuel :
  replay_loop sample_handler 3 sample_thread replaying_world = None
  /\ handler_iter sample_handler 3 sample_thread replaying_world
     = Ok (set_mShouldDivergeFromRecording true sample_thread,
           mkWorld false (mkReadWriteLock 0 false) 0%nat).
Proof. split; reflexivity. Qed.

(** * Further properties *)

(** ** BufferStream: reading *)

Lemma ReadBytes_null (s : BufferStream) (aSize : N) :
  mInput s = None -> aSize <> 0 -> ReadBytes s aSize = Fatal.
Proof.
  intros Hin Hnz. unfold ReadBytes.
  destruct (N.eqb_spec aSize 0); [contradiction |].
  rewrite Hin. reflexivity.
Qed.

(** X1. Two reads in a row are one read of the sum of the sizes, when
    that sum is a [size_t] (it does not wrap): the same outcome, and when
    they return, the same bytes in the same order and the same stream
    left. *)
Theorem ReadBytes_split (s : BufferStream) (a b : N) :
  mInputSize s < SIZE_MODULUS ->
  a + b < SIZE_MODULUS ->
  (p ← ReadBytes s a; q ← ReadBytes p.2 b; Ok (p.1 ++ q.1, q.2))
  = ReadBytes s (a + b).
Proof.
  intros Hrange Hsum_range.
  destruct (N.eq_dec a 0) as [-> | Ha].
  - rewrite ReadBytes_zero, N.add_0_l. cbn.
    destruct (ReadBytes s b) as [[d s'] | |]; reflexivity.
  - destruct (mInput s) as [buf |] eqn:Hin.
    2: { rewrite !ReadBytes_null by (auto; lia). reflexivity. }
    destruct (N.le_gt_cases a (mInputSize s)) as [Hle | Hgt].
    2: { rewrite !ReadBytes_too_large by lia. reflexivity. }
    rewrite (ReadBytes_in_range s buf a) by assumption. cbn.
    destruct (N.eq_dec b 0) as [-> | Hb].
    + rewrite ReadBytes_zero, N.add_0_r. cbn.
      rewrite app_nil_r. symmetry. apply ReadBytes_in_range; assumption.
    + rewrite (size_sub_exact _ _ Hle Hrange).
      destruct (N.le_gt_cases (a + b) (mInputSize s)) as [Hsum | Hsum].
      * rewrite (ReadBytes_in_range s buf (a + b)) by (auto; lia).
        erewrite ReadBytes_in_range; [| reflexivity | exact Hb | cbn; lia].
        cbn. rewrite N2Nat.inj_add, take_take_drop, drop_drop.
        do 3 f_equal. size_arith.
      * rewrite (ReadBytes_too_large s (a + b)) by exact Hsum.
        rewrite ReadBytes_too_large by (cbn; lia). reflexivity.
Qed.

Lemma ReadBytes_split_witness :
  (p ← ReadBytes sample_input 3; q ← ReadBytes p.2 5; Ok (p.1 ++ q.1, q.2))
  = ReadBytes sample_input 8.
Proof. apply (ReadBytes_split sample_input 3 5); reflexivity. Defined.

(** X2. On a stream whose buffer holds the bytes it counts, a read that
    returns gives exactly [aSize] bytes, the front of the buffer; the rest
    of the buffer and a count lowered by [aSize] are left, the buffer still
    holds the bytes counted, and the output side is untouched. *)
Theorem ReadBytes_accounting
    (s s' : BufferStream) (aSize : N) (d : list byte) :
  holds_remaining s ->
  ReadBytes s aSize = Ok (d, s') ->
  length d = N.to_nat aSize
  /\ mInputSize s' + aSize = mInputSize s
  /\ (exists rest : list byte,
        mInput s = Some (d ++ rest) /\ mInput s' = Some rest)
  /\ holds_remaining s'
  /\ mOutput s' = mOutput s.
Proof.
  intros (buf & Hin & Hlen & Hrange) Hread.
  destruct (N.eq_dec aSize 0) as [-> | Hnz].
  - rewrite ReadBytes_zero in Hread. injection Hread as <- <-.
    split; [reflexivity |]. split; [lia |].
    split; [exists buf; auto |].
    split; [exists buf; auto | reflexivity].
  - destruct (N.le_gt_cases aSize (mInputSize s)) as [Hle | Hgt].
    + rewrite (ReadBytes_in_range s buf) in Hread by assumption.
      injection Hread as <- <-. cbn.
      rewrite (size_sub_exact _ _ Hle Hrange).
      split; [rewrite length_take; lia |]. split; [lia |].
      split; [eexists; rewrite take_drop; auto |].
      split; [| reflexivity].
      eexists; cbn. split; [reflexivity |].
      rewrite length_drop. split; lia.
    + rewrite ReadBytes_too_large in Hread by exact Hgt. discriminate.
Qed.

Lemma ReadBytes_accounting_witness :
  length [x10; x11; x12]%byte = N.to_nat 3
  /\ holds_remaining
       (mkBufferStream None (Some [x13; x14; x15; x16; x17]%byte) 5).
Proof.
  destruct (ReadBytes_accounting sample_input
              (mkBufferStream None (Some [x13; x14; x15; x16; x17]%byte) 5)
              3 [x10; x11; x12]%byte) as (Hd & _ & _ & Hkept & _).
  - eexists. split; [reflexivity |]. split; [vm_compute; lia | reflexivity].
  - reflexivity.
  - split; [exact Hd | exact Hkept].
Defined.

(** ** BufferStream: the two sides *)

Lemma WriteBytes_Some (s : BufferStream) (out d : list byte) :
  mOutput s = Some out ->
  WriteBytes s d
  = Ok {| mOutput := Some (out ++ d);
          mInput := mInput s;
          mInputSize := mInputSize s |}.
Proof. intros H. unfold WriteBytes. rewrite H. reflexivity. Qed.

Lemma WriteBytes_null (s : BufferStream) (d : list byte) :
  mOutput s = None -> WriteBytes s d = Fatal.
Proof. intros H. unfold WriteBytes. rewrite H. reflexivity. Qed.

Lemma IsEmpty_null (s : BufferStream) : mInput s = None -> IsEmpty s = Fatal.
Proof. intros H. unfold IsEmpty. rewrite H. reflexivity. Qed.

(** X3. Both constructors build a stream with one side only, and the
    operations keep it so.  On such a stream the sides exclude each other:
    after a write that returned, [IsEmpty] and every read of a non-zero
    size abort; and where [IsEmpty] returns, every write aborts. *)
Theorem BufferStream_sides_exclusive (s : BufferStream) :
  one_sided s ->
  (forall (d : list byte) (s' : BufferStream),
      WriteBytes s d = Ok s' ->
      one_sided s'
      /\ IsEmpty s' = Fatal
      /\ (forall aSize : N, aSize <> 0 -> ReadBytes s' aSize = Fatal))
  /\ (forall (aSize : N) (d : list byte) (s' : BufferStream),
         ReadBytes s aSize = Ok (d, s') -> one_sided s')
  /\ (forall e : bool,
         IsEmpty s = Ok e -> forall d : list byte, WriteBytes s d = Fatal).
Proof.
  intros Hside. split; [| split].
  - intros d s' Hw. destruct (mOutput s) as [out |] eqn:Hout.
    + rewrite (WriteBytes_Some _ _ _ Hout) in Hw. injection Hw as <-.
      destruct Hside as [Hnone | Hin]; [congruence |].
      split; [right; exact Hin |].
      split; [apply IsEmpty_null, Hin |].
      intros aSize Hnz. apply ReadBytes_null; assumption.
    + rewrite (WriteBytes_null _ _ Hout) in Hw. discriminate.
  - intros aSize d s' Hread. unfold ReadBytes in Hread.
    destruct (aSize =? 0); [injection Hread as _ <-; exact Hside |].
    destruct (mInput s) as [buf |] eqn:Hin; cbn in Hread; [| discriminate].
    destruct (aSize <=? mInputSize s); cbn in Hread; [| discriminate].
    injection Hread as _ <-.
    destruct Hside as [Hout | Hnone]; [left; exact Hout | congruence].
  - intros e Hempty d. apply WriteBytes_null.
    destruct Hside as [Hout | Hin]; [exact Hout |].
    rewrite (IsEmpty_null _ Hin) in Hempty. discriminate.
Qed.

Lemma BufferStream_constructors_one_sided :
  (forall (aInput : option (list byte)) (aInputSize : N),
      one_sided (BufferStream_input aInput aInputSize))
  /\ (forall aOutput : option (list byte),
         one_sided (BufferStream_output aOutput)).
Proof. split; intros; [left | right]; reflexivity. Qed.

Lemma BufferStream_sides_exclusive_witness :
  WriteBytes sample_input [x01]%byte = Fatal.
Proof.
  destruct (BufferStream_sides_exclusive sample_input) as (_ & _ & Hw).
  - left. reflexivity.
  - apply (Hw false). reflexivity.
Defined.

(** ** BufferStream: writing, and reading back *)

Lemma write_chunks_Some (chunks : list (list byte)) (s : BufferStream)
    (out : list byte) :
  mOutput s = Some out ->
  write_chunks s chunks
  = Ok {| mOutput := Some (out ++ concat chunks);
          mInput := mInput s;
          mInputSize := mInputSize s |}.
Proof.
  revert s out. induction chunks as [| d chunks IH]; intros s out Hout.
  - cbn. rewrite app_nil_r, <- Hout. destruct s; reflexivity.
  - cbn [write_chunks]. rewrite (WriteBytes_Some _ _ _ Hout). cbn.
    erewrite IH by reflexivity. cbn. rewrite app_assoc. reflexivity.
Qed.

(** X4. Writing chunks one after the other is writing their concatenation
    at once: the same outcome and the same stream.  (With no chunk at all
    nothing is called, so a stream without output is not noticed.) *)
Theorem write_chunks_concat (s : BufferStream) (chunks : list (list byte)) :
  chunks <> [] ->
  write_chunks s chunks = WriteBytes s (concat chunks).
Proof.
  intros Hne. destruct (mOutput s) as [out |] eqn:Hout.
  - rewrite (write_chunks_Some _ _ _ Hout), (WriteBytes_Some _ _ _ Hout).
    reflexivity.
  - destruct chunks as [| d chunks]; [contradiction |].
    cbn [write_chunks]. rewrite !WriteBytes_null by exact Hout. reflexivity.
Qed.

Lemma write_chunks_concat_witness :
  write_chunks (BufferStream_output (Some [])) [[x01; x02]; []; [x03]]%byte
  = WriteBytes (BufferStream_output (Some [])) [x01; x02; x03]%byte.
Proof.
  apply (write_chunks_concat (BufferStream_output (Some []))
           [[x01; x02]; []; [x03]]%byte).
  discriminate.
Defined.

Lemma read_chunks_exact (chunks : list (list byte)) (out : option (list byte))
    (rest : list byte) (n : N) :
  N.of_nat (length (concat chunks)) <= n -> n < SIZE_MODULUS ->
  read_chunks (mkBufferStream out (Some (concat chunks ++ rest)) n)
    (map chunk_size chunks)
  = Ok (chunks,
        mkBufferStream out (Some rest)
          (n - N.of_nat (length (concat chunks)))).
Proof.
  revert n. induction chunks as [| d chunks IH]; intros n Hlen Hrange.
  - cbn. rewrite N.sub_0_r. reflexivity.
  - cbn [concat map read_chunks] in *. rewrite length_app in Hlen.
    destruct d as [| b d].
    + unfold chunk_size at 1. cbn [length N.of_nat].
      rewrite ReadBytes_zero. cbn.
      rewrite IH by (cbn in Hlen; lia). reflexivity.
    + erewrite ReadBytes_in_range;
        [| reflexivity | unfold chunk_size; cbn; lia
         | unfold chunk_size; cbn in *; lia].
      cbn [mbind result_bind fst snd mOutput mInputSize].
      unfold chunk_size at 1 2 3. rewrite Nat2N.id, <- app_assoc.
      rewrite take_app_length, drop_app_length.
      rewrite size_sub_exact by lia.
      rewrite IH by lia. cbn. rewrite length_app.
      do 3 f_equal. lia.
Qed.

(** X5. What was written chunk by chunk into an empty vector is read back
    chunk by chunk, with the same sizes, from an input stream over that
    vector, and the stream is then empty; the vector must be shorter than
    [2^64] bytes for its length to be a [size_t]. *)
Theorem write_read_round_trip (chunks : list (list byte)) :
  N.of_nat (length (concat chunks)) < SIZE_MODULUS ->
  exists vec : list byte,
    write_chunks (BufferStream_output (Some [])) chunks
    = Ok (BufferStream_output (Some vec))
    /\ exists s' : BufferStream,
         read_chunks (BufferStream_input (Some vec) (chunk_size vec))
           (map chunk_size chunks) = Ok (chunks, s')
         /\ IsEmpty s' = Ok true.
Proof.
  intros Hrange. exists (concat chunks). split.
  - erewrite write_chunks_Some by reflexivity. reflexivity.
  - eexists. split.
    + unfold BufferStream_input, chunk_size at 1.
      rewrite <- (app_nil_r (concat chunks)) at 1.
      apply read_chunks_exact; [lia | exact Hrange].
    + unfold IsEmpty; cbn. rewrite N.sub_diag. reflexivity.
Qed.

Lemma write_read_round_trip_witness :
  exists (vec : list byte) (s' : BufferStream),
    read_chunks (BufferStream_input (Some vec) (chunk_size vec)) [2; 0; 1]
    = Ok ([[x01; x02]; []; [x03]]%byte, s')
    /\ IsEmpty s' = Ok true.
Proof.
  destruct (write_read_round_trip [[x01; x02]; []; [x03]]%byte)
    as (vec & _ & s' & Hread & Hempty).
  - reflexivity.
  - exists vec, s'. split; [exact Hread | exact Hempty].
Defined.

(** ** BufferStream: scalars *)

Lemma byte_of_N_to_N (x : N) : x < 256 -> Byte.to_N (byte_of_N x) = x.
Proof.
  intros Hx. unfold byte_of_N.
  destruct (Byte.of_N x) as [b |] eqn:Hb; cbn.
  - apply Byte.to_of_N, Hb.
  - apply Byte.of_N_None_iff in Hb. lia.
Qed.

Lemma le_repr_length (n : nat) (v : N) : length (le_repr n v) = n.
Proof.
  revert v. induction n as [| n IH]; intros v; cbn; [| rewrite IH];
    reflexivity.
Qed.

Lemma le_value_repr (n : nat) (v : N) :
  v < 2 ^ (8 * N.of_nat n) -> le_value (le_repr n v) = v.
Proof.
  revert v. induction n as [| n IH]; intros v Hv.
  - cbn in *. lia.
  - cbn [le_repr le_value].
    rewrite byte_of_N_to_N by (apply N.mod_lt; lia).
    rewrite IH.
    + pose proof (N.div_mod v 256). lia.
    + replace (8 * N.of_nat (S n)) with (8 + 8 * N.of_nat n) in Hv by lia.
      rewrite N.pow_add_r in Hv. change (2 ^ 8) with 256 in Hv.
      apply N.Div0.div_lt_upper_bound. exact Hv.
Qed.

Section ScalarProperties.

Variable repr : nat -> N -> list byte.
Variable value : list byte -> N.

(** What is asked of the target: an integer of [n] bytes is represented in
    [n] bytes, from which it can be read back. *)
Hypothesis repr_length : forall (n : nat) (v : N), length (repr n v) = n.
Hypothesis value_repr :
  forall (n : nat) (v : N), v < 2 ^ (8 * N.of_nat n) -> value (repr n v) = v.

Lemma ReadBytes_front (out : option (list byte)) (d rest : list byte) (n : N) :
  d <> [] -> chunk_size d <= n -> n < SIZE_MODULUS ->
  ReadBytes (mkBufferStream out (Some (d ++ rest)) n) (chunk_size d)
  = Ok (d, mkBufferStream out (Some rest) (n - chunk_size d)).
Proof.
  intros Hd Hle Hrange.
  erewrite ReadBytes_in_range; [| reflexivity | | exact Hle].
  - cbn. unfold chunk_size. rewrite Nat2N.id.
    rewrite take_app_length, drop_app_length.
    rewrite size_sub_exact by (fold (chunk_size d); assumption).
    reflexivity.
  - unfold chunk_size. destruct d; [contradiction | cbn; lia].
Qed.

(** X6. A scalar written by [WriteScalar32] (below [2^32]) or by
    [WriteScalar] (below [2^64]) is appended to the vector in 4 or 8 bytes;
    [ReadScalar32] or [ReadScalar] on an input stream that starts with those
    bytes returns the scalar and consumes exactly them. *)
Theorem scalar_round_trip
    (aValue : N) (vec rest : list byte) (out : option (list byte)) (n : N) :
  n < SIZE_MODULUS ->
  (aValue < 2 ^ 32 -> 4 <= n ->
   WriteScalar32 repr (BufferStream_output (Some vec)) aValue
   = Ok (BufferStream_output (Some (vec ++ repr 4 aValue)))
   /\ length (repr 4 aValue) = 4%nat
   /\ ReadScalar32 value
        (mkBufferStream out (Some (repr 4 aValue ++ rest)) n)
      = Ok (aValue, mkBufferStream out (Some rest) (n - 4)))
  /\ (aValue < 2 ^ 64 -> 8 <= n ->
      WriteScalar repr (BufferStream_output (Some vec)) aValue
      = Ok (BufferStream_output (Some (vec ++ repr 8 aValue)))
      /\ length (repr 8 aValue) = 8%nat
      /\ ReadScalar value
           (mkBufferStream out (Some (repr 8 aValue ++ rest)) n)
         = Ok (aValue, mkBufferStream out (Some rest) (n - 8))).
Proof.
  intros Hrange.
  assert (Hne : forall k : nat, (0 < k)%nat -> repr k aValue <> []).
  { intros k Hk Hnil. pose proof (repr_length k aValue) as Hl.
    rewrite Hnil in Hl. cbn in Hl. lia. }
  split; intros Hv Hn.
  - split; [reflexivity |]. split; [apply repr_length |].
    unfold ReadScalar32.
    pose proof (ReadBytes_front out (repr 4 aValue) rest n) as Hread.
    unfold chunk_size in Hread. rewrite repr_length in Hread.
    change (N.of_nat 4) with 4 in Hread.
    rewrite Hread by (auto; apply Hne; lia). cbn.
    rewrite value_repr by exact Hv. reflexivity.
  - split; [reflexivity |]. split; [apply repr_length |].
    unfold ReadScalar.
    pose proof (ReadBytes_front out (repr 8 aValue) rest n) as Hread.
    unfold chunk_size in Hread. rewrite repr_length in Hread.
    change (N.of_nat 8) with 8 in Hread.
    rewrite Hread by (auto; apply Hne; lia). cbn.
    rewrite value_repr by exact Hv. reflexivity.
Qed.

End ScalarProperties.

Lemma scalar_round_trip_witness :
  ReadScalar32 le_value
    (mkBufferStream None (Some (le_repr 4 3735928559 ++ [x07]%byte)) 5)
  = Ok (3735928559, mkBufferStream None (Some [x07]%byte) 1).
Proof.
  destruct (scalar_round_trip le_repr le_value le_repr_length le_value_repr
              3735928559 [] [x07]%byte None 5) as [H32 _].
  - reflexivity.
  - destruct H32 as (_ & _ & Hread); [reflexivity | discriminate |].
    exact Hread.
Defined.

(** X7. [ReadScalar32] aborts exactly when the stream has no input or
    fewer than 4 bytes remain, and [ReadScalar] when fewer than 8 remain:
    a scalar is never read in part, and neither call blocks. *)
Theorem ReadScalar_short (value : list byte -> N) (s : BufferStream) :
  (ReadScalar32 value s = Fatal <-> mInput s = None \/ mInputSize s < 4)
  /\ (ReadScalar value s = Fatal <-> mInput s = None \/ mInputSize s < 8)
  /\ ReadScalar32 value s <> Blocked
  /\ ReadScalar value s <> Blocked.
Proof.
  assert (H : forall k : N, k <> 0 ->
            ((p ← ReadBytes s k; Ok (value p.1, p.2)) = Fatal
             <-> mInput s = None \/ mInputSize s < k)
            /\ (p ← ReadBytes s k; Ok (value p.1, p.2)) <> Blocked).
  { intros k Hk. destruct (mInput s) as [buf |] eqn:Hin.
    - destruct (N.le_gt_cases k (mInputSize s)) as [Hle | Hgt].
      + rewrite (ReadBytes_in_range s buf k) by assumption. cbn.
        split; [| discriminate]. split; [discriminate |].
        intros [? | ?]; [discriminate | lia].
      + rewrite ReadBytes_too_large by exact Hgt. cbn.
        split; [| discriminate]. split; auto.
    - rewrite ReadBytes_null by assumption. cbn.
      split; [| discriminate]. split; auto. }
  destruct (H 4) as [H4 B4]; [lia |].
  destruct (H 8) as [H8 B8]; [lia |].
  unfold ReadScalar32, ReadScalar. auto.
Qed.

(** ** Thread: the pass-through flag *)

(** X8. [SetPassThrough] only toggles: it aborts exactly when the flag
    already has the value asked for; when it returns, the flag has that
    value, the same call again aborts, the opposite call gives back the
    thread as it was, and a thread set to pass through cannot access the
    recording. *)
Theorem SetPassThrough_toggles (aPassThrough : bool) (t : Thread) :
  (SetPassThrough aPassThrough t = Fatal <->
   PassThroughEvents t = aPassThrough)
  /\ (forall t' : Thread,
         SetPassThrough aPassThrough t = Ok t' ->
         PassThroughEvents t' = aPassThrough
         /\ SetPassThrough aPassThrough t' = Fatal
         /\ SetPassThrough (negb aPassThrough) t' = Ok t
         /\ (aPassThrough = true -> CanAccessRecording t' = false)).
Proof.
  unfold SetPassThrough, PassThroughEvents.
  destruct t as [i p d dv sh ev]; destruct p, aPassThrough; cbn.
  all: split;
    [split; intros H; (discriminate H || reflexivity) | intros t' H].
  all: try discriminate H.
  all: injection H as <-; cbn.
  all: repeat split; intros; (reflexivity || discriminate).
Qed.

Lemma SetPassThrough_toggles_witness :
  SetPassThrough true sample_thread
  = Ok (set_mPassThroughEvents true sample_thread)
  /\ SetPassThrough false (set_mPassThroughEvents true sample_thread)
     = Ok sample_thread.
Proof.
  split; [reflexivity |].
  destruct (SetPassThrough_toggles true sample_thread) as [_ H].
  destruct (H (set_mPassThroughEvents true sample_thread))
    as (_ & _ & Hback & _); [reflexivity |].
  exact Hback.
Defined.

(** ** RecordingEventSection: the outcomes of CanAccessEvents *)

(** X9. [CanAccessEvents] returns true exactly on a thread that can access
    the recording; it aborts exactly when disallowed events are not
    tolerated and the thread, neither passing through nor diverged, has
    events disallowed; it never blocks, and on a null thread it returns
    false. *)
Theorem CanAccessEvents_outcomes (t : Thread) (aTolerateDisallowedEvents : bool) :
  (CanAccessEvents (Some t) aTolerateDisallowedEvents = Ok true <->
   CanAccessRecording t = true)
  /\ (CanAccessEvents (Some t) aTolerateDisallowedEvents = Fatal <->
      aTolerateDisallowedEvents = false
      /\ PassThroughEvents t = false
      /\ HasDivergedFromRecording t = false
      /\ AreEventsDisallowed t = true)
  /\ CanAccessEvents (Some t) aTolerateDisallowedEvents <> Blocked
  /\ CanAccessEvents None aTolerateDisallowedEvents = Ok false.
Proof.
  unfold CanAccessEvents, CanAccessRecording.
  destruct (PassThroughEvents t), (HasDivergedFromRecording t),
    (AreEventsDisallowed t), aTolerateDisallowedEvents; cbn;
    repeat split; try discriminate; try reflexivity;
    intuition discriminate.
Qed.

(** ** Thread: depth of the disallow counter *)

Lemma size_decr_exact (n : N) :
  0 < n -> n < SIZE_MODULUS -> size_decr n = n - 1.
Proof. intros H0 H1. size_arith. Qed.

(** X10. After [j + m] nested calls of [BeginDisallowEvents], [j] calls of
    [EndDisallowEvents] all return and leave the thread as [m] calls of
    [BeginDisallowEvents] do: with [m = 0] the thread is as before, with
    [m > 0] events are still disallowed.  The counter must not pass the
    largest [size_t]. *)
Theorem disallow_depth (j m : nat) (t : Thread) :
  mDisallowEvents t + N.of_nat (j + m) <= SIZE_MAX ->
  end_n j (begin_n (j + m) t) = Ok (begin_n m t)
  /\ ((0 < m)%nat ->
      AreEventsDisallowed (begin_n m t) = true
      /\ CanAccessRecording (begin_n m t) = false).
Proof.
  intros Hmax. split.
  - induction j as [| j IH]; [reflexivity |].
    change (S j + m)%nat with (S (j + m)).
    rewrite begin_n_S. cbn [end_n].
    rewrite Begin_End_DisallowEvents.
    + cbn. apply IH. lia.
    + rewrite begin_n_counter by lia. lia.
  - intros Hm.
    assert (Hdis : AreEventsDisallowed (begin_n m t) = true).
    { apply AreEventsDisallowed_counter. rewrite begin_n_counter by lia. lia. }
    split; [exact Hdis |].
    apply CanAccessRecording_false. auto.
Qed.

Lemma disallow_depth_witness :
  end_n 2 (begin_n 3 sample_thread) = Ok (begin_n 1 sample_thread)
  /\ CanAccessRecording (begin_n 1 sample_thread) = false.
Proof.
  destruct (disallow_depth 2 1 sample_thread) as [Hends Hstill].
  - vm_compute. discriminate.
  - split; [exact Hends |]. apply Hstill. lia.
Defined.

(** X11. [k] calls of [EndDisallowEvents] in a row abort exactly when the
    counter is below [k]; otherwise they all return and the counter is
    lower by [k], nothing else in the thread having changed. *)
Theorem disallow_unbalanced (k : nat) (t : Thread) :
  mDisallowEvents t < SIZE_MODULUS ->
  (end_n k t = Fatal <-> mDisallowEvents t < N.of_nat k)
  /\ (N.of_nat k <= mDisallowEvents t ->
      end_n k t
      = Ok (set_mDisallowEvents (mDisallowEvents t - N.of_nat k) t)).
Proof.
  revert t. induction k as [| k IH]; intros t Hrange.
  - cbn [end_n]. split.
    + split; [discriminate | cbn; lia].
    + intros _. cbn. rewrite N.sub_0_r. destruct t; reflexivity.
  - cbn [end_n].
    destruct (N.eq_dec (mDisallowEvents t) 0) as [Hz | Hnz].
    + rewrite (EndDisallowEvents_zero _ Hz). cbn.
      split; [split; [lia | reflexivity] | lia].
    + rewrite (EndDisallowEvents_positive _ Hnz). cbn.
      rewrite size_decr_exact by lia.
      destruct (IH (set_mDisallowEvents (mDisallowEvents t - 1) t))
        as [Hfatal Hok]; [cbn; lia |].
      cbn in Hfatal, Hok. split.
      * rewrite Hfatal. lia.
      * intros Hle. rewrite Hok by lia.
        unfold set_mDisallowEvents; cbn. do 2 f_equal. lia.
Qed.

Lemma disallow_unbalanced_witness :
  end_n 3 (begin_n 2 sample_thread) = Fatal.
Proof.
  destruct (disallow_unbalanced 3 (begin_n 2 sample_thread)) as [Hfatal _].
  - reflexivity.
  - apply Hfatal. reflexivity.
Defined.

(** ** Thread: what sequences of operations keep *)

Lemma thread_step_frame (op : ThreadOp) (t t' : Thread) (c c' : Coordination) :
  thread_step op (t, c) = Ok (t', c') ->
  mId t' = mId t
  /\ mEvents t' = mEvents t
  /\ (mShouldDivergeFromRecording t = true ->
      mShouldDivergeFromRecording t' = true)
  /\ cWaiting c' = cWaiting c
  /\ (forall j : N, j <> mId t -> pending c' j = pending c j).
Proof.
  intros Hstep. destruct op; cbn in Hstep.
  - unfold SetPassThrough in Hstep.
    destruct (bool_decide _); cbn in Hstep; [| discriminate].
    injection Hstep as <- <-. repeat split; auto.
  - injection Hstep as <- <-. repeat split; auto.
  - unfold EndDisallowEvents in Hstep.
    destruct (negb _); cbn in Hstep; [| discriminate].
    injection Hstep as <- <-. repeat split; auto.
  - injection Hstep as <- <-. repeat split; auto.
  - unfold SetShouldDivergeFromRecording in Hstep.
    destruct (CurrentIsMainThread cur); cbn in Hstep; [| discriminate].
    injection Hstep as <- <-. cbn.
    repeat split; auto. intros j Hj. apply pending_Notify_other. auto.
  - injection Hstep as <- <-. unfold MaybeDivergeFromRecording.
    destruct (mShouldDivergeFromRecording t) eqn:Hsh; cbn;
      repeat split; auto; congruence.
Qed.

(** X12. No sequence of operations of a thread changes its id or its
    event stream, nor sends a notification to any other thread's id. *)
Theorem thread_run_frame
    (ops : list ThreadOp) (t t' : Thread) (c c' : Coordination) :
  thread_run ops (t, c) = Ok (t', c') ->
  Id t' = Id t
  /\ Events t' = Events t
  /\ (forall j : N, j <> Id t -> pending c' j = pending c j).
Proof.
  unfold Id, Events.
  revert t c. induction ops as [| op ops IH]; intros t c Hrun.
  - cbn in Hrun. injection Hrun as <- <-. auto.
  - cbn [thread_run] in Hrun.
    destruct (thread_step op (t, c)) as [[t1 c1] | |] eqn:Hstep;
      cbn in Hrun; try discriminate.
    destruct (thread_step_frame _ _ _ _ _ Hstep) as (Hid & Hev & _ & _ & Hp).
    destruct (IH _ _ Hrun) as (Hid' & Hev' & Hp').
    split; [congruence |]. split; [congruence |].
    intros j Hj. rewrite Hp' by congruence. apply Hp, Hj.
Qed.

Lemma thread_run_frame_witness :
  pending (Notify 2 coord_init) 1 = pending coord_init 1.
Proof.
  destruct (thread_run_frame
              [OpSetShouldDivergeFromRecording (Some 1);
               OpMaybeDivergeFromRecording; OpBeginDisallowEvents]
              sample_thread
              (BeginDisallowEvents
                 (set_mDivergedFromRecording true
                    (set_mShouldDivergeFromRecording true sample_thread)))
              coord_init (Notify 2 coord_init)) as (_ & _ & Hp).
  - reflexivity.
  - apply Hp. discriminate.
Defined.

(** X13. No operation clears a request to diverge: once
    [mShouldDivergeFromRecording] is set it stays set along any sequence of
    operations, so the next [MaybeDivergeFromRecording] returns true. *)
Theorem should_diverge_is_kept
    (ops : list ThreadOp) (t t' : Thread) (c c' : Coordination) :
  thread_run ops (t, c) = Ok (t', c') ->
  mShouldDivergeFromRecording t = true ->
  mShouldDivergeFromRecording t' = true
  /\ (MaybeDivergeFromRecording t').1 = true.
Proof.
  intros Hrun Hsh.
  assert (Hkept : mShouldDivergeFromRecording t' = true).
  { revert t c Hrun Hsh. induction ops as [| op ops IH]; intros t c Hrun Hsh.
    - cbn in Hrun. injection Hrun as <- _. exact Hsh.
    - cbn [thread_run] in Hrun.
      destruct (thread_step op (t, c)) as [[t1 c1] | |] eqn:Hstep;
        cbn in Hrun; try discriminate.
      apply (IH _ _ Hrun).
      apply (thread_step_frame _ _ _ _ _ Hstep). exact Hsh. }
  split; [exact Hkept |].
  rewrite MaybeDivergeFromRecording_result, MaybeDivergeFromRecording_flag.
  rewrite Hkept. reflexivity.
Qed.

Lemma should_diverge_is_kept_witness :
  (MaybeDivergeFromRecording
     (set_mPassThroughEvents true
        (BeginDisallowEvents
           (set_mShouldDivergeFromRecording true sample_thread)))).1 = true.
Proof.
  apply (should_diverge_is_kept
           [OpBeginDisallowEvents; OpSetPassThrough true]
           (set_mShouldDivergeFromRecording true sample_thread) _
           coord_init coord_init).
  - reflexivity.
  - reflexivity.
Defined.

(** X14. A request to diverge does not diverge the thread:
    [SetShouldDivergeFromRecording] leaves [HasDivergedFromRecording] and
    [CanAccessRecording] as they were.  The next
    [MaybeDivergeFromRecording] returns true and ends the access to the
    recording, and a further [MaybeDivergeFromRecording] changes nothing. *)
Theorem diverge_on_request
    (cur : option N) (t t1 : Thread) (c c1 : Coordination) :
  SetShouldDivergeFromRecording cur t c = Ok (t1, c1) ->
  HasDivergedFromRecording t1 = HasDivergedFromRecording t
  /\ CanAccessRecording t1 = CanAccessRecording t
  /\ (MaybeDivergeFromRecording t1).1 = true
  /\ CanAccessRecording (MaybeDivergeFromRecording t1).2 = false
  /\ MaybeDivergeFromRecording (MaybeDivergeFromRecording t1).2
     = (true, (MaybeDivergeFromRecording t1).2).
Proof.
  unfold SetShouldDivergeFromRecording. intros H.
  destruct (CurrentIsMainThread cur); cbn in H; [| discriminate].
  injection H as <- _.
  split; [reflexivity |]. split; [reflexivity |].
  split; [reflexivity |].
  split; [| reflexivity].
  unfold CanAccessRecording; cbn. apply andb_false_r.
Qed.

Lemma diverge_on_request_witness :
  CanAccessRecording (set_mShouldDivergeFromRecording true sample_thread)
  = CanAccessRecording sample_thread
  /\ CanAccessRecording
       (MaybeDivergeFromRecording
          (set_mShouldDivergeFromRecording true sample_thread)).2 = false.
Proof.
  destruct (diverge_on_request (Some 1) sample_thread
              (set_mShouldDivergeFromRecording true sample_thread)
              coord_init (Notify 2 coord_init))
    as (_ & Hsame & _ & Hend & _).
  - reflexivity.
  - split; [exact Hsame | exact Hend].
Defined.

(** ** RecordingEventSection: sections that do not pair up *)

Lemma CanAccessRecording_flags (t : Thread) :
  CanAccessRecording t = true ->
  mPassThroughEvents t = false
  /\ mDisallowEvents t = 0
  /\ mDivergedFromRecording t = false.
Proof.
  unfold CanAccessRecording, AreEventsDisallowed, PassThroughEvents,
    HasDivergedFromRecording.
  destruct (mPassThroughEvents t), (mDivergedFromRecording t),
    (N.eqb_spec (mDisallowEvents t) 0); cbn; intros H;
    try discriminate H; auto.
Qed.

Section UnpairedSections.

Variable Env : Type.
Variable HitEndOfRecording : Thread -> World Env -> result (Thread * World Env).

Local Abbreviation ctor := (RecordingEventSection_ctor HitEndOfRecording).

Lemma ctor_recording_returns
    (fuel : nat) (t t1 : Thread) (w w1 : World Env) :
  IsRecording w = true -> CanAccessRecording t = true ->
  ctor fuel (Some t) w = Some (Ok (Some t1, w1)) ->
  t1 = set_mInRecordingEventSection true t
  /\ IsRecording w1 = true
  /\ lReaders (mStreamLock w1) = S (lReaders (mStreamLock w)).
Proof.
  intros Hrec Hacc Hctor.
  rewrite ctor_recording in Hctor by assumption.
  destruct (mInRecordingEventSection (Events t)); cbn in Hctor;
    [discriminate |].
  destruct (ReadLock (mStreamLock w)) as [l | |] eqn:Hlock; cbn in Hctor;
    try discriminate.
  assert (Ht : t1 = set_mInRecordingEventSection true t) by congruence.
  assert (Hw : w1 = set_mStreamLock l w) by congruence.
  subst t1 w1. split; [reflexivity |]. split; [exact Hrec |].
  apply (ReadLock_ReadUnlock _ _ Hlock).
Qed.

(** X15. While recording, once the constructor has returned for a thread
    that can access the recording, a second constructor on that thread,
    before any destructor, aborts: sections do not nest. *)
Theorem nested_section_aborts
    (fuel fuel' : nat) (t t1 : Thread) (w w1 : World Env) :
  IsRecording w = true -> CanAccessRecording t = true ->
  ctor fuel (Some t) w = Some (Ok (Some t1, w1)) ->
  ctor fuel' (Some t1) w1 = Some Fatal.
Proof.
  intros Hrec Hacc Hctor.
  destruct (ctor_recording_returns _ _ _ _ _ Hrec Hacc Hctor)
    as (-> & Hrec1 & _).
  apply ctor_nested_fatal; [exact Hrec1 | | reflexivity].
  rewrite CanAccessRecording_in_section. exact Hacc.
Qed.

(** X16. While recording, if the thread loses its access to the recording
    inside a section (it diverges, disallows events, or starts to pass
    through), the destructor does nothing: the read lock stays taken and
    the marker stays set.  If events were disallowed and are allowed again
    after that destructor, the next constructor on the thread aborts. *)
Theorem section_left_without_access
    (fuel : nat) (t t1 t2 : Thread) (w w1 : World Env) :
  IsRecording w = true -> CanAccessRecording t = true ->
  ctor fuel (Some t) w = Some (Ok (Some t1, w1)) ->
  t2 = DivergeFromRecording t1
  \/ t2 = BeginDisallowEvents t1
  \/ SetPassThrough true t1 = Ok t2 ->
  RecordingEventSection_dtor (Some t2) w1 = (Some t2, w1)
  /\ mInRecordingEventSection (Events t2) = true
  /\ lReaders (mStreamLock w1) = S (lReaders (mStreamLock w))
  /\ (t2 = BeginDisallowEvents t1 ->
      exists t3 : Thread,
        EndDisallowEvents t2 = Ok t3
        /\ CanAccessRecording t3 = true
        /\ forall fuel' : nat, ctor fuel' (Some t3) w1 = Some Fatal).
Proof.
  intros Hrec Hacc Hctor Hlost.
  destruct (ctor_recording_returns _ _ _ _ _ Hrec Hacc Hctor)
    as (Ht1 & Hrec1 & Hreaders).
  assert (Hacc1 : CanAccessRecording t1 = true)
    by (rewrite Ht1, CanAccessRecording_in_section; exact Hacc).
  destruct (CanAccessRecording_flags _ Hacc1) as (Hpass & Hzero & _).
  assert (Hmark : mInRecordingEventSection (Events t1) = true)
    by (rewrite Ht1; reflexivity).
  assert (Hno : CanAccessRecording t2 = false
                /\ mInRecordingEventSection (Events t2) = true).
  { destruct Hlost as [-> | [-> | Hset]].
    - split; [| exact Hmark].
      apply CanAccessRecording_false. right; right. reflexivity.
    - split; [| exact Hmark].
      apply CanAccessRecording_false. right; left.
      unfold AreEventsDisallowed. rewrite BeginDisallowEvents_counter, Hzero.
      reflexivity.
    - unfold SetPassThrough in Hset. rewrite Hpass in Hset. cbn in Hset.
      injection Hset as <-. split; [| exact Hmark].
      apply CanAccessRecording_false. left. reflexivity. }
  destruct Hno as [Hno Hmark2].
  split; [apply dtor_no_access, Hno |].
  split; [exact Hmark2 |]. split; [exact Hreaders |].
  intros ->. exists t1.
  split; [apply Begin_End_DisallowEvents; rewrite Hzero; reflexivity |].
  split; [exact Hacc1 |].
  intros fuel'. apply ctor_nested_fatal; assumption.
Qed.

(** X17. While replaying, on a thread that can access the recording: if at
    entry the thread is asked to diverge or its stream has data, the
    constructor returns without calling the handler and the world is
    untouched.  Otherwise the handler is called; if it returns with the
    request to diverge set, the constructor returns right after that call
    with the thread diverged; if it returns a thread not asked to diverge
    whose stream has data, the constructor returns that thread. *)
Theorem replay_section_wakes
    (fuel : nat) (t t2 : Thread) (w w2 : World Env) :
  IsRecording w = false -> CanAccessRecording t = true ->
  (must_wait t = false ->
   ctor (S fuel) (Some t) w
   = Some (Ok (Some (MaybeDivergeFromRecording t).2, w)))
  /\ (must_wait t = true ->
      HitEndOfRecording (MaybeDivergeFromRecording t).2 w = Ok (t2, w2) ->
      (mShouldDivergeFromRecording t2 = true ->
       ctor (S (S fuel)) (Some t) w
       = Some (Ok (Some (set_mDivergedFromRecording true t2), w2)))
      /\ (mShouldDivergeFromRecording t2 = false ->
          HasDivergedFromRecording t2 = false ->
          AtEnd (Events t2) = false ->
          ctor (S (S fuel)) (Some t) w = Some (Ok (Some t2, w2)))).
Proof.
  intros Hrec Hacc. rewrite !ctor_replaying by assumption. split.
  - intros Hexit. rewrite replay_loop_S, Hexit. reflexivity.
  - intros Hwait Hhit. rewrite replay_loop_S, Hwait, Hhit. split.
    + intros Hsh. rewrite replay_loop_S. unfold must_wait.
      rewrite MaybeDivergeFromRecording_result,
        MaybeDivergeFromRecording_flag, Hsh. cbn.
      unfold MaybeDivergeFromRecording. rewrite Hsh. reflexivity.
    + intros Hsh Hdiv Hdata. rewrite replay_loop_S. unfold must_wait.
      unfold HasDivergedFromRecording in Hdiv.
      unfold MaybeDivergeFromRecording. rewrite Hsh. cbn.
      rewrite Hdiv, Hdata. reflexivity.
Qed.

End UnpairedSections.

Lemma nested_section_aborts_witness :
  RecordingEventSection_ctor sample_handler 0
    (Some (set_mInRecordingEventSection true sample_thread))
    (set_mStreamLock (mkReadWriteLock 2 false) recording_world)
  = Some Fatal.
Proof.
  apply (nested_section_aborts nat sample_handler 0 0
           sample_thread _ recording_world _); reflexivity.
Defined.

Lemma section_left_without_access_witness :
  RecordingEventSection_dtor
    (Some (DivergeFromRecording
             (set_mInRecordingEventSection true sample_thread)))
    (set_mStreamLock (mkReadWriteLock 2 false) recording_world)
  = (Some (DivergeFromRecording
             (set_mInRecordingEventSection true sample_thread)),
     set_mStreamLock (mkReadWriteLock 2 false) recording_world).
Proof.
  destruct (section_left_without_access nat sample_handler 0
              sample_thread
              (set_mInRecordingEventSection true sample_thread)
              (DivergeFromRecording
                 (set_mInRecordingEventSection true sample_thread))
              recording_world
              (set_mStreamLock (mkReadWriteLock 2 false) recording_world))
    as (Hdtor & _).
  - reflexivity.
  - reflexivity.
  - reflexivity.
  - left. reflexivity.
  - exact Hdtor.
Defined.

Lemma replay_section_wakes_witness :
  RecordingEventSection_ctor sample_handler 2 (Some sample_thread)
    (mkWorld false (mkReadWriteLock 0 false) 0%nat)
  = Some (Ok (Some (set_mDivergedFromRecording true
                      (set_mShouldDivergeFromRecording true sample_thread)),
              mkWorld false (mkReadWriteLock 0 false) 0%nat)).
Proof.
  destruct (replay_section_wakes nat sample_handler 0 sample_thread
              (set_mShouldDivergeFromRecording true sample_thread)
              (mkWorld false (mkReadWriteLock 0 false) 0%nat)
              (mkWorld false (mkReadWriteLock 0 false) 0%nat))
    as [_ Hwaits].
  - reflexivity.
  - reflexivity.
  - destruct Hwaits as [Hasked _]; [reflexivity | reflexivity |].
    apply Hasked. reflexivity.
Defined.
